(** * Source Engine Query relay: the protocol client of rust-udp-relay

  A shallow embedding of the two variants of the UDP relay service,
  [src/server.js] (module [ServerJs]) and the second, unnamed variant
  [src/unnamed/part_000] (module [Relay]), followed by the properties of
  the packet decoders, of the per-query socket life cycle and of the batch
  endpoint.

  Buffers are lists of bytes, an index read [data[i]] is an [option]
  ([None] is JavaScript's [undefined]), strings are sequences of UTF-16
  code units, exceptions are explicit ([completion]), and the event-driven
  query functions are handlers over an explicit socket/promise state. *)

From Stdlib Require Import ZArith NArith List Bool Lia.
From Stdlib.Strings Require Import String Ascii Byte.
From stdpp Require Import base tactics option numbers list.

Set Default Proof Using "Type".
Local Open Scope Z_scope.

(** ** JavaScript values used by the service *)

Module Js.

(** A Node [Buffer]. *)
Abbreviation Buffer := (list byte).

(** A JavaScript string: its UTF-16 code units. *)
Abbreviation jsstring := (list Z).

Definition u8 (b : byte) : Z := Z.of_N (Byte.to_N b).

(** [Buffer.from([...])]: every array element is stored modulo 256. *)
Definition byteOf (z : Z) : byte :=
  match Byte.of_N (Z.to_N (z mod 256)) with
  | Some b => b
  | None => x00
  end.

Definition fromArray (l : list Z) : Buffer := byteOf <$> l.

(** [Buffer.from(s, 'ascii')] for a literal of 7-bit characters. *)
Definition fromAscii (s : string) : Buffer := list_byte_of_string s.

(** A string literal of the source, as code units. *)
Definition lit (s : string) : jsstring := u8 <$> list_byte_of_string s.

(** [data[i]]; [None] stands for [undefined]. *)
Definition at_ (data : Buffer) (i : nat) : option Z := u8 <$> data !! i.

(** [data.slice(start, end)], of a buffer or of an array, for non-negative
    indices: both ends are clamped to the length, and an end before the
    start gives the empty result. *)
Definition slice {A} (data : list A) (start end_ : nat) : list A :=
  take (end_ - start) (drop start data).

(** [while (end < data.length && data[end] !== 0) end++] *)
Fixpoint scanNul (rest : Buffer) (end_ : nat) : nat :=
  match rest with
  | b :: rest' => if Byte.eqb b x00 then end_ else scanNul rest' (S end_)
  | [] => end_
  end.

Definition findNul (data : Buffer) (offset : nat) : nat :=
  scanNul (drop offset data) offset.

(** *** [toString('utf8')]

    Node decodes with replacement: every maximal ill-formed subsequence
    becomes U+FFFD, and a code point above U+FFFF becomes a surrogate
    pair. *)

Definition REPLACEMENT : Z := 0xFFFD.

Inductive lead :=
| LeadAscii (u : Z)
| LeadMulti (cp : Z) (needed : nat) (lower upper : Z)
| LeadInvalid.

Definition classify (b : Z) : lead :=
  if b <=? 0x7F then LeadAscii b
  else if (0xC2 <=? b) && (b <=? 0xDF) then
    LeadMulti (Z.land b 0x1F) 1 0x80 0xBF
  else if (0xE0 <=? b) && (b <=? 0xEF) then
    LeadMulti (Z.land b 0xF) 2
      (if b =? 0xE0 then 0xA0 else 0x80) (if b =? 0xED then 0x9F else 0xBF)
  else if (0xF0 <=? b) && (b <=? 0xF4) then
    LeadMulti (Z.land b 0x7) 3
      (if b =? 0xF0 then 0x90 else 0x80) (if b =? 0xF4 then 0x8F else 0xBF)
  else LeadInvalid.

Definition utf16 (cp : Z) : jsstring :=
  if cp <? 0x10000 then [cp]
  else [0xD800 + Z.shiftr (cp - 0x10000) 10;
        0xDC00 + Z.land (cp - 0x10000) 0x3FF].

Fixpoint decodeFrom (pending : option (Z * nat * Z * Z)) (bs : list Z)
  : jsstring :=
  match bs with
  | [] => match pending with None => [] | Some _ => [REPLACEMENT] end
  | b :: rest =>
      let fresh :=
        match classify b with
        | LeadAscii u => u :: decodeFrom None rest
        | LeadMulti cp n lo hi => decodeFrom (Some (cp, n, lo, hi)) rest
        | LeadInvalid => REPLACEMENT :: decodeFrom None rest
        end in
      match pending with
      | None => fresh
      | Some (cp, n, lo, hi) =>
          if (lo <=? b) && (b <=? hi) then
            let cp' := Z.lor (Z.shiftl cp 6) (Z.land b 0x3F) in
            match n with
            | S (S n') => decodeFrom (Some (cp', S n', 0x80, 0xBF)) rest
            | _ => utf16 cp' ++ decodeFrom None rest
            end
          else REPLACEMENT :: fresh
      end
  end.

Definition utf8 (bs : Buffer) : jsstring := decodeFrom None (u8 <$> bs).

(** *** [String.prototype.trim]: WhiteSpace and LineTerminator units. *)
Definition isWhiteSpace (u : Z) : bool :=
  ((0x09 <=? u) && (u <=? 0x0D)) || (u =? 0x20) || (u =? 0xA0)
  || (u =? 0x1680) || ((0x2000 <=? u) && (u <=? 0x200A))
  || (u =? 0x2028) || (u =? 0x2029) || (u =? 0x202F) || (u =? 0x205F)
  || (u =? 0x3000) || (u =? 0xFEFF).

Fixpoint trimStart (s : jsstring) : jsstring :=
  match s with
  | u :: s' => if isWhiteSpace u then trimStart s' else s
  | [] => []
  end.

Definition trim (s : jsstring) : jsstring :=
  rev (trimStart (rev (trimStart s))).

(** [x || 0] on a number that may be [undefined]. *)
Definition orZero (x : option Z) : Z :=
  match x with
  | Some v => if v =? 0 then 0 else v
  | None => 0
  end.

(** [s || fallback] on a string: the empty string is falsy. *)
Definition orString (s fallback : jsstring) : jsstring :=
  match s with
  | [] => fallback
  | _ :: _ => s
  end.

(** [String.fromCharCode(x)]: [undefined] converts to code unit 0. *)
Definition fromCharCode (x : option Z) : jsstring :=
  match x with
  | Some v => [v]
  | None => [0]
  end.

(** *** Little-endian reads; [None] is the [RangeError] Node raises when
    the read does not fit in the buffer. *)

Definition readUInt16LE (data : Buffer) (offset : nat) : option Z :=
  match at_ data offset, at_ data (offset + 1) with
  | Some b0, Some b1 => Some (b0 + b1 * 2 ^ 8)
  | _, _ => None
  end.

Definition word32 (data : Buffer) (offset : nat) : option Z :=
  match at_ data offset, at_ data (offset + 1),
        at_ data (offset + 2), at_ data (offset + 3) with
  | Some b0, Some b1, Some b2, Some b3 =>
      Some (b0 + b1 * 2 ^ 8 + b2 * 2 ^ 16 + b3 * 2 ^ 24)
  | _, _, _, _ => None
  end.

Definition toInt32 (w : Z) : Z := if w <? 2 ^ 31 then w else w - 2 ^ 32.

Definition readInt32LE (data : Buffer) (offset : nat) : option Z :=
  toInt32 <$> word32 data offset.

(** A number read by [readFloatLE] is kept as its IEEE-754 binary32 bit
    pattern. *)
Abbreviation float32 := Z.

Definition readFloatLE (data : Buffer) (offset : nat) : option float32 :=
  word32 data offset.

(** [d || 0] on such a number: the zeros and the NaNs are falsy. *)
Definition f32Falsy (d : float32) : bool :=
  (Z.land d 0x7FFFFFFF =? 0)
  || ((Z.land d 0x7F800000 =? 0x7F800000)
      && negb (Z.land d 0x007FFFFF =? 0)).

Definition f32OrZero (d : float32) : float32 := if f32Falsy d then 0 else d.

(** *** Exceptions and effects *)

Inductive JsError :=
| Error (message : string)
| RangeError
| NotRunning
| TypeError.                      (* a property read of null or undefined *)

Inductive completion (A : Type) :=
| Normal (a : A)
| Throw (e : JsError).
Global Arguments Normal {A} a.
Global Arguments Throw {A} e.

(** Code that mutates local state and may throw; the state survives a
    throw, as the side effects of a JavaScript statement do. *)
Definition Eff (S A : Type) : Type := S → completion A * S.

Definition ret {S A} (a : A) : Eff S A := λ s, (Normal a, s).

Definition bind {S A B} (m : Eff S A) (f : A → Eff S B) : Eff S B := λ s,
  match m s with
  | (Normal a, s') => f a s'
  | (Throw e, s') => (Throw e, s')
  end.

Declare Scope eff_scope.
Delimit Scope eff_scope with eff.
Bind Scope eff_scope with Eff.
Notation "x ← y ; z" := (bind y (λ x : _, z%eff))
  (at level 20, y at level 100, z at level 200, only parsing) : eff_scope.
Notation "x ;; z" := (bind x (λ _, z%eff))
  (at level 100, z at level 200, only parsing, right associativity)
  : eff_scope.

Definition throw {S A} (e : JsError) : Eff S A := λ s, (Throw e, s).

Definition tryCatch {S A} (body : Eff S A) (handler : JsError → Eff S A)
  : Eff S A := λ s,
  match body s with
  | (Normal a, s') => (Normal a, s')
  | (Throw e, s') => handler e s'
  end.

(** [if (cond) throw e] *)
Definition throwIf {S} (cond : bool) (e : JsError) : Eff S () := λ s,
  (if cond then Throw e else Normal (), s).

Definition get {S} : Eff S S := λ s, (Normal s, s).

End Js.

Import Js.

(** ** The Node runtime as seen by one query

    A query owns one socket, one timer and one promise.  [Call] records what
    the query did to them; [local] holds the closure variables of the
    variant ([challengeReceived], or [resolved] and [step]). *)

Module Node.

Inductive Settled (A : Type) :=
| Resolved (value : A)
| Rejected (reason : JsError).
Global Arguments Resolved {A} value.
Global Arguments Rejected {A} reason.

Record Call (X A : Type) := mkCall {
  closeCalls : nat;               (* calls of client.close() so far *)
  timersSet : nat;                (* calls of setTimeout so far *)
  timer : option Z;               (* delay of the armed timer, if any *)
  pendingSends : nat;             (* sends whose callback has not run yet *)
  sent : list (Buffer * Z * string);  (* client.send(packet, port, ip) *)
  promise : option (Settled A);   (* the first settlement wins *)
  uncaught : list JsError;        (* exceptions that escaped a handler *)
  local : X
}.
Global Arguments mkCall {X A}.
Global Arguments closeCalls {X A}.
Global Arguments timersSet {X A}.
Global Arguments timer {X A}.
Global Arguments pendingSends {X A}.
Global Arguments sent {X A}.
Global Arguments promise {X A}.
Global Arguments uncaught {X A}.
Global Arguments local {X A}.

Section Operations.
Context {X A : Type}.
Abbreviation Op := (Eff (Call X A) ()).

(** [dgram.createSocket('udp4')] and [new Promise]: nothing done yet. *)
Definition fresh (x : X) : Call X A := mkCall 0 0 None 0 [] None [] x.

Definition setTimeout (ms : Z) : Op := λ c,
  (Normal (),
   mkCall (closeCalls c) (S (timersSet c)) (Some ms) (pendingSends c)
          (sent c) (promise c) (uncaught c) (local c)).

Definition clearTimeout : Op := λ c,
  (Normal (),
   mkCall (closeCalls c) (timersSet c) None (pendingSends c)
          (sent c) (promise c) (uncaught c) (local c)).

(** [client.close()]; closing a socket that is already closed raises
    ERR_SOCKET_DGRAM_NOT_RUNNING. *)
Definition close : Op := λ c,
  (match closeCalls c with O => Normal () | S _ => Throw NotRunning end,
   mkCall (S (closeCalls c)) (timersSet c) (timer c) (pendingSends c)
          (sent c) (promise c) (uncaught c) (local c)).

Definition settle (s : Settled A) : Op := λ c,
  (Normal (),
   mkCall (closeCalls c) (timersSet c) (timer c) (pendingSends c) (sent c)
          (match promise c with Some old => Some old | None => Some s end)
          (uncaught c) (local c)).

Definition resolve (value : A) : Op := settle (Resolved value).
Definition reject (reason : JsError) : Op := settle (Rejected reason).

(** [client.send(packet, port, ip, callback)] when [callback] is given,
    [client.send(packet, port, ip)] otherwise. *)
Definition send (packet : Buffer) (port : Z) (ip : string) (callback : bool)
  : Op := λ c,
  (Normal (),
   mkCall (closeCalls c) (timersSet c) (timer c)
          (if callback then S (pendingSends c) else pendingSends c)
          (sent c ++ [(packet, port, ip)]) (promise c) (uncaught c)
          (local c)).

(** A call of [client.send] that may raise synchronously ([sync] is the
    exception, if any: a bad port, a socket that is not running). *)
Definition sendOrThrow (sync : option JsError) (packet : Buffer) (port : Z)
  (ip : string) (callback : bool) : Op :=
  match sync with
  | Some e => throw e
  | None => send packet port ip callback
  end.

Definition getLocal : Eff (Call X A) X := λ c, (Normal (local c), c).

Definition setLocal (x : X) : Op := λ c,
  (Normal (),
   mkCall (closeCalls c) (timersSet c) (timer c) (pendingSends c)
          (sent c) (promise c) (uncaught c) x).

(** Events the runtime hands to the query's callbacks. *)
Inductive Event :=
| TimerFires
| SendCallback (err : option JsError)
| Message (msg : Buffer)
| SocketError (err : JsError).

(** Run one callback to completion; an exception that escapes it is
    uncaught. *)
Definition run (h : Op) (c : Call X A) : Call X A :=
  match h c with
  | (Normal _, c') => c'
  | (Throw e, c') =>
      mkCall (closeCalls c') (timersSet c') (timer c') (pendingSends c')
             (sent c') (promise c') (uncaught c' ++ [e]) (local c')
  end.

(** What the runtime delivers: a timer fires at most once and never after
    [clearTimeout]; ['message'] and ['error'] are emitted only while the
    socket is open; the callback of a send runs at most once, and it may
    run after the socket was closed. *)
Definition deliver (on : Event → Op) (ev : Event) (c : Call X A)
  : Call X A :=
  match ev with
  | TimerFires =>
      match timer c with
      | Some _ =>
          run (on ev)
              (mkCall (closeCalls c) (timersSet c) None (pendingSends c)
                      (sent c) (promise c) (uncaught c) (local c))
      | None => c
      end
  | SendCallback _ =>
      match pendingSends c with
      | S n =>
          run (on ev)
              (mkCall (closeCalls c) (timersSet c) (timer c) n
                      (sent c) (promise c) (uncaught c) (local c))
      | O => c
      end
  | Message _ | SocketError _ =>
      match closeCalls c with
      | O => run (on ev) c
      | S _ => c
      end
  end.

Definition deliverAll (on : Event → Op) (evs : list Event) (c : Call X A)
  : Call X A := foldl (λ c ev, deliver on ev c) c evs.

End Operations.

(** [await p] in a request handler: the settlement of the promise of a
    query, if it ever settles and the handler is resumed.  An exception
    that escaped one of the query's callbacks is an uncaught exception;
    neither variant listens for ['uncaughtException'], so it ends the
    process and the handler is never resumed. *)
Definition await {X A} (c : Call X A) : option (Settled A) :=
  match uncaught c with
  | [] => promise c
  | _ :: _ => None
  end.

(** [Promise.all(promises)].  [promises] lists, for every input promise,
    its settlement if it ever settles; [order] is the order in which the
    inputs complete.  Every fulfilment is stored at the index of its input,
    the result resolves once every slot is filled, and the first rejection
    rejects the whole. *)
Fixpoint allLoop {A} (promises : list (option (Settled A)))
  (order : list nat) (values : list (option A))
  : option (Settled (list A)) :=
  match order with
  | [] => None
  | index :: order' =>
      match promises !! index with
      | Some (Some (Resolved value)) =>
          let values := <[index := Some value]> values in
          match mapM id values with
          | Some all => Some (Resolved all)
          | None => allLoop promises order' values
          end
      | Some (Some (Rejected reason)) => Some (Rejected reason)
      | _ => allLoop promises order' values
      end
  end.

Definition promiseAll {A} (promises : list (option (Settled A)))
  (order : list nat) : option (Settled (list A)) :=
  match promises with
  | [] => Some (Resolved [])
  | _ :: _ => allLoop promises order (replicate (length promises) None)
  end.

(** [Promise.all([p, q])] for two promises of different types. *)
Definition mapSettled {A B} (f : A → B) (s : Settled A) : Settled B :=
  match s with
  | Resolved value => Resolved (f value)
  | Rejected reason => Rejected reason
  end.

Definition promiseAll2 {A B} (p : option (Settled A))
  (q : option (Settled B)) (order : list nat) : option (Settled (A * B)) :=
  match promiseAll [mapSettled inl <$> p; mapSettled inr <$> q] order with
  | Some (Resolved [inl a; inr b]) => Some (Resolved (a, b))
  | Some (Resolved _) => None
  | Some (Rejected reason) => Some (Rejected reason)
  | None => None
  end.

End Node.

(** A server to query, as posted to the batch endpoint; [id] is opaque and
    only echoed. *)
Module QuerySpec.
Record t (I : Type) := mk {
  id : I;
  ip : string;
  port : Z
}.
Global Arguments mk {I}.
Global Arguments id {I}.
Global Arguments ip {I}.
Global Arguments port {I}.
End QuerySpec.

Import Node.

(** ** [src/server.js] *)

Module ServerJs.

Module ServerInfo.
Record t := mk {
  name : jsstring;
  map : jsstring;
  game : jsstring;
  players : Z;
  maxPlayers : Z;
  bots : Z;
  appId : Z
}.
End ServerInfo.

Module PlayerEntry.
Record t := mk {
  index : Z;
  name : jsstring;
  score : Z;
  duration : float32
}.
End PlayerEntry.

Section parseServerInfo.
Variable data : Buffer.

(** The closures of [parseServerInfo]; the state is [offset]. *)
Definition readString : Eff nat jsstring := λ offset,
  let start := offset in
  let offset := findNul data offset in
  let str := utf8 (slice data start offset) in
  (Normal str, S offset).

Definition readByte : Eff nat (option Z) := λ offset,
  (Normal (at_ data offset), S offset).

Definition readShort : Eff nat Z := λ offset,
  match readUInt16LE data offset with
  | Some val => (Normal val, (offset + 2)%nat)
  | None => (Throw RangeError, offset)
  end.

(** The [try] block. *)
Definition parseBody : Eff nat ServerInfo.t :=
  (name ← readString;
  map ← readString;
  folder ← readString;
  game ← readString;
  offset ← get;
  throwIf (bool_decide (length data < offset + 7)%nat)
          (Error "Insufficient data for server info");;
  appId ← readShort;
  players ← readByte;
  maxPlayers ← readByte;
  bots ← readByte;
  serverType ← readByte;
  environment ← readByte;
  ret (ServerInfo.mk
          (orString name (lit "Unknown Server"))
          (orString map (lit "Unknown Map"))
          (orString game (lit "Unknown Game"))
          (orZero players) (orZero maxPlayers) (orZero bots)
          (orZero (Some appId))))%eff.

(** The offset reached once the four strings are read. *)
Definition afterStrings : nat :=
  snd ((readString;; readString;; readString;; readString)%eff 6%nat).

(** The object returned by the [catch] block. *)
Definition parseError : ServerInfo.t :=
  ServerInfo.mk (lit "Parse Error") (lit "Unknown") (lit "Unknown") 0 0 0 0.

Definition parseServerInfo : completion ServerInfo.t :=
  if bool_decide (length data < 6)%nat
     || bool_decide (at_ data 4 ≠ Some 0x49)
  then Throw (Error "Invalid server info response")
  else fst (tryCatch parseBody (λ err, ret parseError) 6%nat).

End parseServerInfo.

Section parsePlayerInfo.
Variable data : Buffer.

(** [i < playerCount]: a comparison with [undefined] is false. *)
Definition iterations (playerCount : option Z) : nat :=
  match playerCount with
  | Some n => Z.to_nat n
  | None => 0
  end.

(** The [for] loop with [left = playerCount - i] iterations to go; the
    result is the [players] array when the [try] statement is left, by the
    end of the loop, by a [break], or through the [catch] block. *)
Fixpoint playerLoop (left offset : nat) (players : list PlayerEntry.t)
  : list PlayerEntry.t :=
  match left with
  | O => players
  | S left' =>
      match at_ data offset with
      | None => players
      | Some index =>
          let nameStart := S offset in
          let offset := findNul data nameStart in
          let name := utf8 (slice data nameStart offset) in
          let offset := S offset in
          if bool_decide (length data < offset + 8)%nat then players
          else
            match readInt32LE data offset,
                  readFloatLE data (offset + 4) with
            | Some score, Some duration =>
                playerLoop left' (offset + 8)
                  (match name with
                   | _ :: _ =>
                       players ++
                       [PlayerEntry.mk index (trim name)
                          (orZero (Some score)) (f32OrZero duration)]
                   | [] => players
                   end)
            | _, _ => players
            end
      end
  end.

Definition parsePlayerInfo : completion (list PlayerEntry.t) :=
  if bool_decide (length data < 6)%nat
     || bool_decide (at_ data 4 ≠ Some 0x44)
  then Throw (Error "Invalid player info response")
  else
    let playerCount := at_ data 6 in
    Normal (playerLoop (iterations playerCount) 7 []).

End parsePlayerInfo.

(** [err.message] *)
Definition message (err : JsError) : string :=
  match err with
  | Error m => m
  | RangeError => "The value of offset is out of range"
  | NotRunning => "Not running"
  | TypeError => "Cannot read properties of null"
  end.

(** *** [getServerInfo(ip, port)]: the A2S_INFO query *)

Section Queries.
Variable timeout : Z.       (* this.timeout *)
Variables (ip : string) (port : Z).

Definition infoPacket : Buffer :=
  fromArray [0xFF; 0xFF; 0xFF; 0xFF; 0x54]
  ++ fromAscii "Source Engine Query" ++ fromArray [0x00].

(** The promise executor; [sync] is what [client.send] raises on the spot,
    if anything. *)
Definition getServerInfo (sync : option JsError) : Call () ServerInfo.t :=
  run (setTimeout timeout;;
       tryCatch (sendOrThrow sync infoPacket port ip true)
                (λ err, clearTimeout;; close;; reject err))%eff
      (fresh ()).

Definition onServerInfo (ev : Event) : Eff (Call () ServerInfo.t) () :=
  match ev with
  | TimerFires => close;; reject (Error "Timeout")
  | SendCallback (Some err) => clearTimeout;; close;; reject err
  | SendCallback None => ret ()
  | Message data =>
      clearTimeout;; close;;
      match parseServerInfo data with
      | Normal parsed => resolve parsed
      | Throw parseErr => reject parseErr
      end
  | SocketError err => clearTimeout;; close;; reject err
  end%eff.

(** *** [getPlayers(ip, port)]: the A2S_PLAYER query; the closure variable
    is [challengeReceived]. *)

Definition challengePacket : Buffer :=
  fromArray [0xFF; 0xFF; 0xFF; 0xFF; 0x55; 0xFF; 0xFF; 0xFF; 0xFF].

Definition playerPacket (challenge : Buffer) : Buffer :=
  fromArray [0xFF; 0xFF; 0xFF; 0xFF; 0x55] ++ challenge.

Definition getPlayers (sync : option JsError)
  : Call bool (list PlayerEntry.t) :=
  run (setTimeout timeout;;
       tryCatch (sendOrThrow sync challengePacket port ip true)
                (λ err, clearTimeout;; close;; reject err))%eff
      (fresh false).

Definition onPlayers (ev : Event)
  : Eff (Call bool (list PlayerEntry.t)) () :=
  match ev with
  | TimerFires => close;; reject (Error "Timeout")
  | SendCallback (Some err) => clearTimeout;; close;; reject err
  | SendCallback None => ret ()
  | Message data =>
      challengeReceived ← getLocal;
      if negb challengeReceived && bool_decide (9 ≤ length data)%nat then
        setLocal true;;
        let challenge := slice data 5 9 in
        send (playerPacket challenge) port ip true
      else
        clearTimeout;; close;;
        match parsePlayerInfo data with
        | Normal parsed => resolve parsed
        | Throw parseErr => reject parseErr
        end
  | SocketError err => clearTimeout;; close;; reject err
  end%eff.

End Queries.

(** *** POST /query-batch *)

Module Errors.
Record t := mk {
  serverInfo : option string;     (* [None]: the key is absent *)
  players : option string
}.
End Errors.

Module BatchResult.
Record t (I : Type) := mk {
  id : I;
  ip : string;
  port : Z;
  serverInfo : option ServerInfo.t;           (* [None] is [null] *)
  players : option (list PlayerEntry.t);
  errors : Errors.t
}.
Global Arguments mk {I}.
Global Arguments id {I}.
Global Arguments ip {I}.
Global Arguments port {I}.
Global Arguments serverInfo {I}.
Global Arguments players {I}.
Global Arguments errors {I}.
End BatchResult.

(** What the network and the scheduler do while one request is served, by
    the position [k] of the server in the posted array: the synchronous
    outcome of the first [send] and the events delivered to each of its two
    queries before the request is answered, and, by the start index of a
    window, the order in which the window's promises complete. *)
Record Network := mkNetwork {
  infoSync : nat → option JsError;
  infoEvents : nat → list Event;
  playersSync : nat → option JsError;
  playersEvents : nat → list Event;
  completion : nat → list nat
}.

Section Batch.
Context {I : Type}.
Variable net : Network.

(** The posted array; an element is a server or [null] ([None]). *)
Variable servers : list (option (QuerySpec.t I)).

Definition BATCH_SIZE : nat := 5.

(** The [async (server) => ...] callback of [batch.map], for the server at
    position [k]; [None] when the callback is never resumed from one of its
    awaits: the query never settles, or an uncaught exception has ended the
    process. *)
Definition processServer (k : nat) (server : QuerySpec.t I)
  : option (Settled (BatchResult.t I)) :=
  let ip := QuerySpec.ip server in
  let port := QuerySpec.port server in
  info ← await (deliverAll (onServerInfo) (infoEvents net k)
                  (getServerInfo 3000 ip port (infoSync net k)));
  roster ← await (deliverAll (onPlayers ip port) (playersEvents net k)
                    (getPlayers 3000 ip port (playersSync net k)));
  Some (Resolved
    (BatchResult.mk (QuerySpec.id server) ip port
       (match info with Resolved v => Some v | Rejected _ => None end)
       (match roster with Resolved v => Some v | Rejected _ => None end)
       (Errors.mk
          (match info with
           | Resolved _ => None
           | Rejected err => Some (message err)
           end)
          (match roster with
           | Resolved _ => None
           | Rejected err => Some (message err)
           end)))).

(** The promise the callback returns for the element at position [k].  On
    [null] the first statement of the callback, which reads [server.id],
    raises a TypeError: the promise is rejected before any query starts. *)
Definition processElement (k : nat) (element : option (QuerySpec.t I))
  : option (Settled (BatchResult.t I)) :=
  match element with
  | Some server => processServer k server
  | None => Some (Rejected TypeError)
  end.

(** The [for (let i = 0; i < servers.length; i += BATCH_SIZE)] loop.  The
    result is [None] if the handler never gets to answer, [Rejected] if
    the handler itself fails, and the posted [results] otherwise. *)
Fixpoint batchLoop (fuel i : nat) (results : list (BatchResult.t I))
  : option (Settled (list (BatchResult.t I))) :=
  if bool_decide (i < length servers)%nat then
    match fuel with
    | O => None
    | S fuel' =>
        let batch := slice servers i (i + BATCH_SIZE) in
        let batchPromises := imap (λ j, processElement (i + j)) batch in
        match promiseAll batchPromises (completion net i) with
        | Some (Resolved batchResults) =>
            batchLoop fuel' (i + BATCH_SIZE) (results ++ batchResults)
        | Some (Rejected reason) => Some (Rejected reason)
        | None => None
        end
    end
  else Some (Resolved results).

Definition queryBatch : option (Settled (list (BatchResult.t I))) :=
  batchLoop (length servers) 0 [].

End Batch.

(** *** POST /query-server

    The body's [ip] is taken as a string and its [port] as an integer, so
    [!ip] holds for the empty string and [!port] for 0.  The network is that
    of a batch, at position 0.  [None]: nothing is ever sent, because a
    query never settles or an uncaught exception has ended the process. *)

Module QueryResult.
Record t := mk {
  ip : string;
  port : Z;
  serverInfo : option ServerInfo.t;           (* [None] is [null] *)
  players : option (list PlayerEntry.t);
  errors : Errors.t
}.
End QueryResult.

Inductive Response :=
| BadRequest (error : string)     (* res.status(400).json({ error }) *)
| Answer (result : QueryResult.t).            (* res.json(result) *)

Definition queryServerEndpoint (net : Network) (ip : string) (port : Z)
  : option Response :=
  if String.eqb ip "" || (port =? 0) then
    Some (BadRequest "IP and port are required")
  else
    info ← await (deliverAll (onServerInfo) (infoEvents net 0)
                    (getServerInfo 3000 ip port (infoSync net 0)));
    roster ← await (deliverAll (onPlayers ip port) (playersEvents net 0)
                      (getPlayers 3000 ip port (playersSync net 0)));
    Some (Answer
      (QueryResult.mk ip port
         (match info with Resolved v => Some v | Rejected _ => None end)
         (match roster with Resolved v => Some v | Rejected _ => None end)
         (Errors.mk
            (match info with
             | Resolved _ => None
             | Rejected err => Some (message err)
             end)
            (match roster with
             | Resolved _ => None
             | Rejected err => Some (message err)
             end)))).

(** *** POST /query-batch: the handler

    What the body holds under [servers]: nothing ([undefined] or [null]),
    a value that is not an array, or an array whose elements are servers
    or [null]. *)

Inductive Posted (I : Type) :=
| Missing
| NotArray
| Servers (servers : list (option (QuerySpec.t I))).
Global Arguments Missing {I}.
Global Arguments NotArray {I}.
Global Arguments Servers {I}.

Inductive BatchResponse (I : Type) :=
| BatchBadRequest (error : string)   (* res.status(400).json({ error }) *)
| BatchAnswer (results : list (BatchResult.t I))  (* res.json({ results }) *)
| Unhandled (reason : JsError).      (* the handler raises; nothing is sent *)
Global Arguments BatchBadRequest {I}.
Global Arguments BatchAnswer {I}.
Global Arguments Unhandled {I}.

(** The handler reads [servers.length] for its first log line, before it
    looks at [Array.isArray(servers)], and it has no [try]/[catch] around
    the loop.  [None]: nothing is ever sent. *)
Definition queryBatchEndpoint {I} (net : Network) (posted : Posted I)
  : option (BatchResponse I) :=
  match posted with
  | Missing => Some (Unhandled TypeError)
  | NotArray => Some (BatchBadRequest "Servers array is required")
  | Servers servers =>
      match queryBatch net servers with
      | Some (Resolved results) => Some (BatchAnswer results)
      | Some (Rejected reason) => Some (Unhandled reason)
      | None => None
      end
  end.

End ServerJs.

(** ** [src/unnamed/part_000] *)

Module Relay.

Module ServerInfo.
Record t := mk {
  name : jsstring;
  map : jsstring;
  folder : jsstring;
  game : jsstring;
  players : option Z;             (* [None] is [undefined] *)
  maxPlayers : option Z;
  protocol : option Z;            (* [None]: absent or [undefined] *)
  serverType : option jsstring;
  environment : option jsstring
}.
End ServerInfo.

Module PlayerEntry.
Record t := mk {
  index : Z;
  name : jsstring;
  score : Z;
  duration : float32
}.
End PlayerEntry.

Definition readString (buffer : Buffer) (offset : nat) : jsstring :=
  let end_ := findNul buffer offset in
  utf8 (slice buffer offset end_).

(** [name.length] is the number of UTF-16 code units of the decoded
    string. *)
Definition parseA2SInfo (buffer : Buffer) : completion ServerInfo.t :=
  let offset := 5%nat in
  let name := readString buffer offset in
  let offset := (offset + (length name + 1))%nat in
  let map := readString buffer offset in
  let offset := (offset + (length map + 1))%nat in
  let folder := readString buffer offset in
  let offset := (offset + (length folder + 1))%nat in
  let game := readString buffer offset in
  let offset := (offset + (length game + 1))%nat in
  if bool_decide (offset + 8 ≤ length buffer)%nat then
    let players := at_ buffer (offset + 2) in
    let maxPlayers := at_ buffer (offset + 3) in
    Normal (ServerInfo.mk name map folder game players maxPlayers
              (at_ buffer (offset + 1))
              (Some (fromCharCode (at_ buffer (offset + 4))))
              (Some (fromCharCode (at_ buffer (offset + 5)))))
  else
    Normal (ServerInfo.mk name map folder game (Some 0) (Some 0)
              None None None).

(** The offset [parseA2SInfo] has reached once the four strings are
    read. *)
Definition afterStrings (buffer : Buffer) : nat :=
  let offset := 5%nat in
  let offset := (offset + (length (readString buffer offset) + 1))%nat in
  let offset := (offset + (length (readString buffer offset) + 1))%nat in
  let offset := (offset + (length (readString buffer offset) + 1))%nat in
  (offset + (length (readString buffer offset) + 1))%nat.

Section parseA2SPlayers.
Variable buffer : Buffer.

(** The [for] loop with [left = playerCount - i] iterations to go. *)
Fixpoint playersLoop (left offset : nat) (players : list PlayerEntry.t)
  : completion (list PlayerEntry.t) :=
  match left with
  | O => Normal players
  | S left' =>
      match at_ buffer offset with
      | None => Normal players
      | Some index =>
          let offset := S offset in
          let name := readString buffer offset in
          let offset := (offset + (length name + 1))%nat in
          if bool_decide (offset + 8 ≤ length buffer)%nat then
            match readInt32LE buffer offset,
                  readFloatLE buffer (offset + 4) with
            | Some score, Some duration =>
                playersLoop left' (offset + 8)
                  (players ++ [PlayerEntry.mk index name score duration])
            | _, _ => Throw RangeError
            end
          else playersLoop left' offset players
      end
  end.

(** The value is the [players] array of the returned object. *)
Definition parseA2SPlayers : completion (list PlayerEntry.t) :=
  if bool_decide (length buffer < 6)%nat then Normal []
  else
    let playerCount := at_ buffer 5 in
    playersLoop (ServerJs.iterations playerCount) 6 [].

End parseA2SPlayers.

(** The value every query promise of this variant resolves with:
    [{ success: true, data }] or [{ success: false, error }]. *)
Inductive Outcome (A : Type) :=
| Success (data : A)
| Failure (error : string).
Global Arguments Success {A} data.
Global Arguments Failure {A} error.

Inductive Step := challenge | players.

Section Queries.
Variables (ip : string) (port : Z).
Variable timeout : Z.

Definition infoPacket : Buffer :=
  fromArray [0xFF; 0xFF; 0xFF; 0xFF; 0x54]
  ++ fromAscii "Source Engine Query" ++ fromArray [0x00].

(** [queryServer(ip, port, timeout)]; the closure variable is
    [resolved].  [sync] is what [client.send] raises on the spot, if
    anything (a bad port): the executor of [new Promise] then ends with
    that exception, which rejects the promise, while the timer stays armed
    and the socket open. *)
Definition queryServer (sync : option JsError)
  : Call bool (Outcome ServerInfo.t) :=
  run (setTimeout timeout;;
       tryCatch (sendOrThrow sync infoPacket port ip true)
                (λ err, reject err))%eff
      (fresh false).

(** [if (!resolved) { resolved = true; ... }] *)
Definition unlessResolved {A} (body : Eff (Call bool A) ())
  : Eff (Call bool A) () :=
  (resolved ← (getLocal : Eff (Call bool A) bool);
   if resolved then ret () else setLocal true;; body)%eff.

Definition onServer (ev : Event) : Eff (Call bool (Outcome ServerInfo.t)) () :=
  match ev with
  | TimerFires =>
      unlessResolved (close;; resolve (Failure "Timeout"))
  | SocketError err =>
      unlessResolved
        (clearTimeout;; close;; resolve (Failure (ServerJs.message err)))
  | Message msg =>
      unlessResolved
        (clearTimeout;; close;;
         match parseA2SInfo msg with
         | Normal result => resolve (Success result)
         | Throw error => resolve (Failure (ServerJs.message error))
         end)
  | SendCallback (Some err) =>
      unlessResolved
        (clearTimeout;; close;; resolve (Failure (ServerJs.message err)))
  | SendCallback None => ret ()
  end%eff.

Definition challengePacket : Buffer :=
  fromArray [0xFF; 0xFF; 0xFF; 0xFF; 0x55; 0xFF; 0xFF; 0xFF; 0xFF].

Definition playerPacket (challenge_ : Buffer) : Buffer :=
  fromArray [0xFF; 0xFF; 0xFF; 0xFF; 0x55] ++ challenge_.

(** [queryPlayers(ip, port, timeout)]; the closure variables are
    [resolved] and [step].  As in [queryServer], an exception raised on the
    spot by the first [client.send] rejects the promise. *)
Definition queryPlayers (sync : option JsError)
  : Call (bool * Step) (Outcome (list PlayerEntry.t)) :=
  run (setTimeout timeout;;
       tryCatch (sendOrThrow sync challengePacket port ip true)
                (λ err, reject err))%eff
      (fresh (false, challenge)).

Definition unlessResolved2 {A} (body : Eff (Call (bool * Step) A) ())
  : Eff (Call (bool * Step) A) () :=
  (vars ← (getLocal : Eff (Call (bool * Step) A) (bool * Step));
   if fst vars then ret () else setLocal (true, snd vars);; body)%eff.

Definition onQueryPlayers (ev : Event)
  : Eff (Call (bool * Step) (Outcome (list PlayerEntry.t))) () :=
  match ev with
  | TimerFires =>
      unlessResolved2 (close;; resolve (Failure "Timeout"))
  | SocketError err =>
      unlessResolved2
        (clearTimeout;; close;; resolve (Failure (ServerJs.message err)))
  | Message msg =>
      vars ← (getLocal : Eff (Call (bool * Step) _) (bool * Step));
      if fst vars then ret ()
      else
        match snd vars with
        | challenge =>
            if bool_decide (9 ≤ length msg)%nat
               && bool_decide (at_ msg 4 = Some 0x41)
            then
              let challenge_ := slice msg 5 9 in
              setLocal (fst vars, players);;
              send (playerPacket challenge_) port ip false
            else
              setLocal (true, snd vars);;
              clearTimeout;; close;;
              resolve (Failure "Invalid challenge response")
        | players =>
            setLocal (true, snd vars);;
            clearTimeout;; close;;
            match parseA2SPlayers msg with
            | Normal result => resolve (Success result)
            | Throw error => resolve (Failure (ServerJs.message error))
            end
        end
  | SendCallback (Some err) =>
      unlessResolved2
        (clearTimeout;; close;; resolve (Failure (ServerJs.message err)))
  | SendCallback None => ret ()
  end%eff.

End Queries.

(** *** POST /query-batch *)

Module Errors.
Record t := mk {
  serverInfo : option string;     (* [None] is [null] *)
  players : option string
}.
End Errors.

Module BatchResult.
Record t (I : Type) := mk {
  id : I;
  ip : string;
  port : Z;
  serverInfo : option ServerInfo.t;           (* [None] is [null] *)
  players : list PlayerEntry.t;
  errors : Errors.t
}.
Global Arguments mk {I}.
Global Arguments id {I}.
Global Arguments ip {I}.
Global Arguments port {I}.
Global Arguments serverInfo {I}.
Global Arguments players {I}.
Global Arguments errors {I}.
End BatchResult.

(** What the network and the scheduler do while one request is served, by
    the position [k] of the server in the posted array: the synchronous
    outcome of the first [send] and the events delivered to each of its two
    queries before the request is answered, the order in which the two
    complete, and, by the start index of a window, the order in which the
    window's promises complete. *)
Record Network := mkNetwork {
  infoSync : nat → option JsError;
  infoEvents : nat → list Event;
  playersSync : nat → option JsError;
  playersEvents : nat → list Event;
  pairCompletion : nat → list nat;
  completion : nat → list nat
}.

Section Batch.
Context {I : Type}.
Variable net : Network.

(** The posted array; an element is a server or [null] ([None]). *)
Variable servers : list (option (QuerySpec.t I)).

Definition concurrency : nat := 10.

(** The [async (server) => ...] callback of [batch.map], for the server at
    position [k]; both queries run with the default timeout.  The result
    is [Rejected] when [Promise.all] rejects, which makes the callback
    raise. *)
Definition processServer (k : nat) (server : QuerySpec.t I)
  : option (Settled (BatchResult.t I)) :=
  let ip := QuerySpec.ip server in
  let port := QuerySpec.port server in
  match
    promiseAll2
      (await (deliverAll (onServer) (infoEvents net k)
                (queryServer ip port 5000 (infoSync net k))))
      (await (deliverAll (onQueryPlayers ip port) (playersEvents net k)
                (queryPlayers ip port 5000 (playersSync net k))))
      (pairCompletion net k)
  with
  | Some (Resolved (serverInfo, playerInfo)) =>
      Some (Resolved
        (BatchResult.mk (QuerySpec.id server) ip port
           (match serverInfo with
            | Success data => Some data
            | Failure _ => None
            end)
           (match playerInfo with
            | Success data => data
            | Failure _ => []
            end)
           (Errors.mk
              (match serverInfo with
               | Success _ => None
               | Failure error => Some error
               end)
              (match playerInfo with
               | Success _ => None
               | Failure error => Some error
               end))))
  | Some (Rejected reason) => Some (Rejected reason)
  | None => None
  end.

(** The promise the callback returns for the element at position [k].  On
    [null] the first statement of the callback, which reads [server.ip],
    raises a TypeError: the promise is rejected before any query starts. *)
Definition processElement (k : nat) (element : option (QuerySpec.t I))
  : option (Settled (BatchResult.t I)) :=
  match element with
  | Some server => processServer k server
  | None => Some (Rejected TypeError)
  end.

(** The [for (let i = 0; i < servers.length; i += concurrency)] loop. *)
Fixpoint batchLoop (fuel i : nat) (results : list (BatchResult.t I))
  : option (Settled (list (BatchResult.t I))) :=
  if bool_decide (i < length servers)%nat then
    match fuel with
    | O => None
    | S fuel' =>
        let batch := slice servers i (i + concurrency) in
        let batchPromises := imap (λ j, processElement (i + j)) batch in
        match promiseAll batchPromises (completion net i) with
        | Some (Resolved batchResults) =>
            batchLoop fuel' (i + concurrency) (results ++ batchResults)
        | Some (Rejected reason) => Some (Rejected reason)
        | None => None
        end
    end
  else Some (Resolved results).

Definition queryBatch : option (Settled (list (BatchResult.t I))) :=
  batchLoop (length servers) 0 [].

End Batch.

(** *** POST /query-server

    The body's [ip] is taken as a string and its [port] as an integer, so
    [!ip] holds for the empty string and [!port] for 0.  The network is that
    of a batch, at position 0. *)

Module QueryResult.
Record t := mk {
  serverInfo : option ServerInfo.t;           (* [None] is [null] *)
  players : list PlayerEntry.t;
  errors : Errors.t
}.
End QueryResult.

Inductive Response :=
| BadRequest (error : string)     (* res.status(400).json({ error }) *)
| Answer (result : QueryResult.t)             (* res.json(result) *)
| ServerError (error : string).   (* res.status(500).json({ error }) *)

Definition queryServerEndpoint (net : Network) (ip : string) (port : Z)
  : option Response :=
  if String.eqb ip "" || (port =? 0) then
    Some (BadRequest "IP and port required")
  else
    match
      promiseAll2
        (await (deliverAll (onServer) (infoEvents net 0)
                  (queryServer ip port 5000 (infoSync net 0))))
        (await (deliverAll (onQueryPlayers ip port) (playersEvents net 0)
                  (queryPlayers ip port 5000 (playersSync net 0))))
        (pairCompletion net 0)
    with
    | Some (Resolved (serverInfo, playerInfo)) =>
        Some (Answer
          (QueryResult.mk
             (match serverInfo with
              | Success data => Some data
              | Failure _ => None
              end)
             (match playerInfo with
              | Success data => data
              | Failure _ => []
              end)
             (Errors.mk
                (match serverInfo with
                 | Success _ => None
                 | Failure error => Some error
                 end)
                (match playerInfo with
                 | Success _ => None
                 | Failure error => Some error
                 end))))
    | Some (Rejected error) => Some (ServerError (ServerJs.message error))
    | None => None
    end.

(** *** POST /query-batch: the handler

    [Array.isArray(servers)] is looked at first; the handler has no
    [try]/[catch].  [None]: nothing is ever sent. *)

Inductive BatchResponse (I : Type) :=
| BatchBadRequest (error : string)   (* res.status(400).json({ error }) *)
| BatchAnswer (results : list (BatchResult.t I))  (* res.json({ results }) *)
| Unhandled (reason : JsError).      (* the handler raises; nothing is sent *)
Global Arguments BatchBadRequest {I}.
Global Arguments BatchAnswer {I}.
Global Arguments Unhandled {I}.

Definition queryBatchEndpoint {I} (net : Network)
  (posted : ServerJs.Posted I) : option (BatchResponse I) :=
  match posted with
  | ServerJs.Missing | ServerJs.NotArray =>
      Some (BatchBadRequest "Servers array required")
  | ServerJs.Servers servers =>
      match queryBatch net servers with
      | Some (Resolved results) => Some (BatchAnswer results)
      | Some (Rejected reason) => Some (Unhandled reason)
      | None => None
      end
  end.

End Relay.

(** ** Inputs used below *)

(** The info response of the scenario: the header [FF FF FF FF 49], the four
    strings, and the seven bytes [F0 00 10 20 00 64 6C]. *)
Definition infoScenario : Buffer :=
  fromArray [0xFF; 0xFF; 0xFF; 0xFF; 0x49]
  ++ fromAscii "My Server" ++ [x00] ++ fromAscii "de_dust2" ++ [x00]
  ++ fromAscii "csgo" ++ [x00] ++ fromAscii "Counter-Strike" ++ [x00]
  ++ fromArray [240; 0x00; 0x10; 0x20; 0x00; 0x64; 0x6c].

(** A bare five-byte info header. *)
Definition bareInfoHeader : Buffer := fromArray [0xFF; 0xFF; 0xFF; 0xFF; 0x49].



(** A buffer shorter than the header, and a challenge response (tag 0x41)
    handed to the info decoder. *)
Definition shortDatagram : Buffer := fromArray [0xFF; 0xFF; 0xFF; 0xFF].

Definition challengeDatagram : Buffer :=
  fromArray [0xFF; 0xFF; 0xFF; 0xFF; 0x41; 0x01; 0x02; 0x03; 0x04].

(** What the scenario expects of the decoded info response, on the fields
    each variant's result has. *)
Definition scenarioExpectedServerJs (info : ServerJs.ServerInfo.t) : Prop :=
  ServerJs.ServerInfo.name info = lit "My Server"
  ∧ ServerJs.ServerInfo.map info = lit "de_dust2"
  ∧ ServerJs.ServerInfo.game info = lit "Counter-Strike"
  ∧ ServerJs.ServerInfo.appId info = 240
  ∧ ServerJs.ServerInfo.players info = 16
  ∧ ServerJs.ServerInfo.maxPlayers info = 32
  ∧ ServerJs.ServerInfo.bots info = 0.

Definition scenarioExpectedRelay (info : Relay.ServerInfo.t) : Prop :=
  Relay.ServerInfo.name info = lit "My Server"
  ∧ Relay.ServerInfo.map info = lit "de_dust2"
  ∧ Relay.ServerInfo.folder info = lit "csgo"
  ∧ Relay.ServerInfo.game info = lit "Counter-Strike"
  ∧ Relay.ServerInfo.players info = Some 16
  ∧ Relay.ServerInfo.maxPlayers info = Some 32
  ∧ Relay.ServerInfo.serverType info = Some (lit "d")
  ∧ Relay.ServerInfo.environment info = Some (lit "l").

(** A player response with count 3 at offset 5, two complete entries
    ("a", score 1 and "b", score 2) and a third one cut after three of its
    eight trailing bytes. *)
Definition playersScenario : Buffer :=
  fromArray [0xFF; 0xFF; 0xFF; 0xFF; 0x44; 3]
  ++ fromArray [0; 0x61; 0; 1; 0; 0; 0; 0; 0; 0x80; 0x3F]
  ++ fromArray [1; 0x62; 0; 2; 0; 0; 0; 0; 0; 0x00; 0x40]
  ++ fromArray [2; 0x63; 0; 1; 2; 3].

(** A player response with one complete entry whose name is the two-byte
    UTF-8 encoding of U+00E9, score 5. *)
Definition accentedPlayer : Buffer :=
  fromArray [0xFF; 0xFF; 0xFF; 0xFF; 0x44; 1]
  ++ fromArray [0; 0xC3; 0xA9; 0; 5; 0; 0; 0; 0; 0; 0x80; 0x3F].

(** A response laid out as [parsePlayerInfo] reads it (count at offset 6)
    with one complete entry whose name is a single space. *)
Definition blankNamePlayer : Buffer :=
  fromArray [0xFF; 0xFF; 0xFF; 0xFF; 0x44; 0; 1]
  ++ fromArray [7; 0x20; 0; 9; 0; 0; 0; 0; 0; 0x80; 0x3F].

(** The entries the loop of [parsePlayerInfo] goes through from [offset],
    at most [left] of them, before the name is tested and trimmed: index
    byte, name up to the terminator, eight trailing bytes. *)
Fixpoint completeEntries (data : Buffer) (left offset : nat)
  : list ServerJs.PlayerEntry.t :=
  match left with
  | O => []
  | S left' =>
      match at_ data offset with
      | None => []
      | Some index =>
          let nameStart := S offset in
          let offset := findNul data nameStart in
          let name := utf8 (slice data nameStart offset) in
          let offset := S offset in
          if bool_decide (length data < offset + 8)%nat then []
          else
            match readInt32LE data offset,
                  readFloatLE data (offset + 4) with
            | Some score, Some duration =>
                ServerJs.PlayerEntry.mk index name
                  (orZero (Some score)) (f32OrZero duration)
                :: completeEntries data left' (offset + 8)
            | _, _ => []
            end
      end
  end.

Definition trimName (e : ServerJs.PlayerEntry.t) : ServerJs.PlayerEntry.t :=
  ServerJs.PlayerEntry.mk (ServerJs.PlayerEntry.index e)
    (trim (ServerJs.PlayerEntry.name e)) (ServerJs.PlayerEntry.score e)
    (ServerJs.PlayerEntry.duration e).


(** Two datagrams tagged 0x44, of 9 and of 6 bytes. *)
Definition untaggedDatagram : Buffer :=
  fromArray [0xFF; 0xFF; 0xFF; 0xFF; 0x44; 0x01; 0x02; 0x03; 0x04].

Definition emptyRoster : Buffer :=
  fromArray [0xFF; 0xFF; 0xFF; 0xFF; 0x44; 0x00].

(** The deadline is reached while the send is still pending, for instance
    on a host-name lookup, and the send then fails. *)
Definition lateSendFailure : list Event :=
  [TimerFires; SendCallback (Some (Error "getaddrinfo ENOTFOUND"))].

(** ** The life cycle of one query *)

(** While the timer is armed nothing has been closed or settled and the
    timer still carries the delay it was armed with; once it is gone the
    socket has been closed and the promise is settled.  [setTimeout] was
    called once. *)
Definition lifecycle {X A} (timeout : Z) (c : Call X A) : Prop :=
  timersSet c = 1%nat
  ∧ match timer c with
    | Some t => t = timeout ∧ closeCalls c = 0%nat ∧ promise c = None
    | None => (1 ≤ closeCalls c)%nat ∧ promise c ≠ None
    end.

(** The second variant guards every callback with [resolved]: the socket is
    closed at most once, no callback raises, the promise is never rejected,
    and [resolved] is set exactly when the timer is gone. *)
Definition guarded {X A} (resolved : X → bool) (timeout : Z) (c : Call X A)
  : Prop :=
  lifecycle timeout c
  ∧ (closeCalls c ≤ 1)%nat
  ∧ uncaught c = []
  ∧ resolved (local c) = bool_decide (timer c = None)
  ∧ ∀ reason, promise c ≠ Some (Rejected reason).

(** A query of the second variant whose first send raised [e] on the spot:
    the promise is rejected with [e] and stays so, no callback raises, and
    the timer armed at the start is still there to close the socket. *)
Definition refused {X A} (resolved : X → bool) (timeout : Z) (e : JsError)
  (c : Call X A) : Prop :=
  timersSet c = 1%nat
  ∧ promise c = Some (Rejected e)
  ∧ uncaught c = []
  ∧ pendingSends c = 0%nat
  ∧ match timer c with
    | Some t => t = timeout ∧ closeCalls c = 0%nat
                ∧ resolved (local c) = false
    | None => closeCalls c = 1%nat ∧ resolved (local c) = true
    end.

(** Once the deadline has been reached the timer is gone, whatever came
    before and whatever comes after. *)
Definition timerStable {X A} (on : Event → Eff (Call X A) ()) : Prop :=
  ∀ ev c, ev = TimerFires ∨ timer c = None → timer (deliver on ev c) = None.

(** ** Player entries on the wire *)

(** A complete entry on the wire: the index byte, the bytes of the name,
    the four bytes of the score and the four bytes of the duration. *)
Record WireEntry := mkWire {
  wIndex : byte;
  wName : list byte;
  wScore : byte * byte * byte * byte;
  wDuration : byte * byte * byte * byte
}.

Definition quad (q : byte * byte * byte * byte) : list byte :=
  let '(b0, b1, b2, b3) := q in [b0; b1; b2; b3].

Definition le32 (q : byte * byte * byte * byte) : Z :=
  let '(b0, b1, b2, b3) := q in
  u8 b0 + u8 b1 * 2 ^ 8 + u8 b2 * 2 ^ 16 + u8 b3 * 2 ^ 24.

Definition encodeEntry (e : WireEntry) : Buffer :=
  wIndex e :: wName e ++ x00 :: quad (wScore e) ++ quad (wDuration e).

Definition entryOf (e : WireEntry) : Relay.PlayerEntry.t :=
  Relay.PlayerEntry.mk (u8 (wIndex e)) (u8 <$> wName e)
    (toInt32 (le32 (wScore e))) (le32 (wDuration e)).

(** A name of ASCII characters, none of them the terminator. *)
Definition asciiName (name : list byte) : Prop :=
  Forall (λ b, 0 < u8 b < 128) name.

(** What is left of a final entry that was cut: nothing, or the index byte
    and the name, followed by nothing or by the terminator and fewer than
    eight bytes. *)
Definition truncatedEntry (cut : Buffer) : Prop :=
  cut = []
  ∨ ∃ index name rest,
      cut = index :: name ++ rest ∧ asciiName name
      ∧ (rest = [] ∨ ∃ partial, rest = x00 :: partial
                                 ∧ (length partial < 8)%nat).

(** ** The batch endpoint *)

(** The result for a server echoes its [id], [ip] and [port]. *)
Definition echoes {I} (server : QuerySpec.t I) (id_ : I) (ip : string)
  (port : Z) : Prop :=
  id_ = QuerySpec.id server ∧ ip = QuerySpec.ip server
  ∧ port = QuerySpec.port server.

(** The results gathered so far answer the first [n] servers, one each and
    in their order. *)
Definition answered {T R} (P : nat → T → R → Prop) (servers : list T)
  (results : list R) (n : nat) : Prop :=
  length results = (n `min` length servers)%nat
  ∧ ∀ k s, (k < n)%nat → servers !! k = Some s →
      ∃ r, results !! k = Some r ∧ P k s r.

(** The element at position [k] is a server, and [r] is the result its
    callback fulfils with. *)
Definition serverjsAnswer {I} (net : ServerJs.Network) (k : nat)
  (element : option (QuerySpec.t I)) (r : ServerJs.BatchResult.t I) : Prop :=
  ∃ server, element = Some server
    ∧ ServerJs.processServer net k server = Some (Resolved r)
    ∧ echoes server (ServerJs.BatchResult.id r) (ServerJs.BatchResult.ip r)
        (ServerJs.BatchResult.port r).

Definition relayAnswer {I} (net : Relay.Network) (k : nat)
  (element : option (QuerySpec.t I)) (r : Relay.BatchResult.t I) : Prop :=
  ∃ server, element = Some server
    ∧ Relay.processServer net k server = Some (Resolved r)
    ∧ echoes server (Relay.BatchResult.id r) (Relay.BatchResult.ip r)
        (Relay.BatchResult.port r).

(** No exception escapes a callback of the two queries [src/server.js]
    makes for the server at position [k]. *)
Definition survivesJs (net : ServerJs.Network) (k : nat) (ip : string)
  (port : Z) : Prop :=
  uncaught (deliverAll ServerJs.onServerInfo (ServerJs.infoEvents net k)
              (ServerJs.getServerInfo 3000 ip port (ServerJs.infoSync net k)))
  = []
  ∧ uncaught (deliverAll (ServerJs.onPlayers ip port)
                (ServerJs.playersEvents net k)
                (ServerJs.getPlayers 3000 ip port
                   (ServerJs.playersSync net k)))
    = [].

(** No send is reported to have failed. *)
Definition noSendFailure (evs : list Event) : Prop :=
  ∀ err, SendCallback (Some err) ∉ evs.

(** Six servers, one more than a window of [src/server.js]; the first one
    never answers the info query, and the promises of a window complete in
    the reverse of their order. *)
Definition sixServers : list (QuerySpec.t Z) :=
  (λ n, QuerySpec.mk n "203.0.113.7" (28015 + n)) <$> [10; 11; 12; 13; 14; 15].

Definition silentFirst (k : nat) : list Event :=
  match k with
  | O => [TimerFires]
  | S _ => [Message infoScenario; TimerFires]
  end.

Definition busyNetworkJs : ServerJs.Network :=
  ServerJs.mkNetwork (λ _, None) silentFirst (λ _, None)
    (λ _, [SocketError (Error "ECONNREFUSED"); TimerFires])
    (λ _, [4; 3; 2; 1; 0]%nat).

Definition busyNetworkRelay : Relay.Network :=
  Relay.mkNetwork (λ _, None) silentFirst (λ _, None)
    (λ _, [Message challengeDatagram; Message playersScenario; TimerFires])
    (λ _, [1; 0]%nat)
    (λ _, [9; 8; 7; 6; 5; 4; 3; 2; 1; 0]%nat).

(** *** One failing query in a batch *)

(** Two servers; the port of the first one is out of range, and
    [client.send] raises [badPort] on the spot for it. *)
Definition badPortFirst : list (QuerySpec.t Z) :=
  [QuerySpec.mk 1 "203.0.113.7" 70000; QuerySpec.mk 2 "203.0.113.8" 28015].

Definition badPort : JsError :=
  Error "Port should be > 0 and < 65536. Received type number (70000).".

Definition forFirst {A} (x : A) (k : nat) : option A :=
  match k with
  | O => Some x
  | S _ => None
  end.

(** The second server answers both queries; nothing is heard for the
    first. *)
Definition secondAnswers (reply : list Event) (k : nat) : list Event :=
  match k with
  | O => [TimerFires]
  | S _ => reply
  end.

Definition badPortJs : ServerJs.Network :=
  ServerJs.mkNetwork (forFirst badPort) (secondAnswers [Message infoScenario])
    (forFirst badPort)
    (secondAnswers [Message challengeDatagram; Message playersScenario])
    (λ _, [0; 1]%nat).

Definition badPortRelay : Relay.Network :=
  Relay.mkNetwork (forFirst badPort) (secondAnswers [Message infoScenario])
    (forFirst badPort)
    (secondAnswers [Message challengeDatagram; Message playersScenario])
    (λ _, [0; 1]%nat) (λ _, [0; 1]%nat).

(** Two servers; the name of the first one does not resolve, and the
    lookup fails after the deadline of the query. *)
Definition slowLookupFirst : list (QuerySpec.t Z) :=
  [QuerySpec.mk 1 "example.invalid" 28015;
   QuerySpec.mk 2 "203.0.113.8" 28015].

Definition failsLate (reply : list Event) (k : nat) : list Event :=
  match k with
  | O => lateSendFailure
  | S _ => reply
  end.

Definition slowLookupJs : ServerJs.Network :=
  ServerJs.mkNetwork (λ _, None) (failsLate [Message infoScenario])
    (λ _, None)
    (failsLate [Message challengeDatagram; Message playersScenario])
    (λ _, [0; 1]%nat).

Definition slowLookupRelay : Relay.Network :=
  Relay.mkNetwork (λ _, None) (failsLate [Message infoScenario])
    (λ _, None)
    (failsLate [Message challengeDatagram; Message playersScenario])
    (λ _, [0; 1]%nat) (λ _, [0; 1]%nat).

(** ** Further properties: inputs and expected values *)

(** The fields a result of [parseServerInfo] can have. *)
Definition wellFormedInfo (info : ServerJs.ServerInfo.t) : Prop :=
  ServerJs.ServerInfo.name info ≠ []
  ∧ ServerJs.ServerInfo.map info ≠ []
  ∧ ServerJs.ServerInfo.game info ≠ []
  ∧ 0 ≤ ServerJs.ServerInfo.players info ≤ 255
  ∧ 0 ≤ ServerJs.ServerInfo.maxPlayers info ≤ 255
  ∧ 0 ≤ ServerJs.ServerInfo.bots info ≤ 255
  ∧ 0 ≤ ServerJs.ServerInfo.appId info ≤ 65535.

(** The numbers of a decoded player entry: the index is a byte, the score a
    signed 32-bit integer, the duration a 32-bit pattern. *)
Definition wellFormedPlayer (index score duration : Z) : Prop :=
  0 ≤ index ≤ 255 ∧ - 2 ^ 31 ≤ score < 2 ^ 31 ∧ 0 ≤ duration < 2 ^ 32.

Definition wellFormedPlayerJs (e : ServerJs.PlayerEntry.t) : Prop :=
  wellFormedPlayer (ServerJs.PlayerEntry.index e)
    (ServerJs.PlayerEntry.score e) (ServerJs.PlayerEntry.duration e).

Definition wellFormedPlayerRelay (e : Relay.PlayerEntry.t) : Prop :=
  wellFormedPlayer (Relay.PlayerEntry.index e)
    (Relay.PlayerEntry.score e) (Relay.PlayerEntry.duration e).

(** A name on the wire: any bytes but the terminator. *)
Definition nulFree (name : list byte) : Prop := Forall (λ b, b ≠ x00) name.

(** The four terminated strings of an info response. *)
Definition infoStrings (name map folder game : list byte) : Buffer :=
  name ++ x00 :: map ++ x00 :: folder ++ x00 :: game ++ [x00].

(** A complete entry as [parsePlayerInfo] of src/server.js decodes it,
    before the name is tested and trimmed. *)
Definition entryJs (e : WireEntry) : ServerJs.PlayerEntry.t :=
  ServerJs.PlayerEntry.mk (u8 (wIndex e)) (utf8 (wName e))
    (orZero (Some (toInt32 (le32 (wScore e)))))
    (f32OrZero (le32 (wDuration e))).

(** What is left of a final entry that was cut, for names of any bytes. *)
Definition truncatedEntryJs (cut : Buffer) : Prop :=
  cut = []
  ∨ ∃ index name rest,
      cut = index :: name ++ rest ∧ nulFree name
      ∧ (rest = [] ∨ ∃ partial, rest = x00 :: partial
                                 ∧ (length partial < 8)%nat).

(** A settled promise stays as it is. *)
Definition firstWins {X A} (on : Event → Eff (Call X A) ()) : Prop :=
  ∀ ev c s, promise c = Some s → promise (deliver on ev c) = Some s.

(** A query that has heard nothing yet: the socket is open, the timer is
    armed and the promise is pending. *)
Definition idle {X A} (c : Call X A) : Prop :=
  closeCalls c = 0%nat ∧ timer c ≠ None ∧ promise c = None.

(** A result of [src/server.js] carries, for each of its two queries,
    either the value or an error message. *)
Definition consistentJs (serverInfo : option ServerJs.ServerInfo.t)
  (players : option (list ServerJs.PlayerEntry.t))
  (errors : ServerJs.Errors.t) : Prop :=
  (serverInfo = None ↔ ServerJs.Errors.serverInfo errors ≠ None)
  ∧ (players = None ↔ ServerJs.Errors.players errors ≠ None).

(** A result of the second variant carries the info or an error message,
    and an empty player list whenever it carries a player error. *)
Definition consistentRelay (serverInfo : option Relay.ServerInfo.t)
  (players : list Relay.PlayerEntry.t) (errors : Relay.Errors.t) : Prop :=
  (serverInfo = None ↔ Relay.Errors.serverInfo errors ≠ None)
  ∧ (Relay.Errors.players errors ≠ None → players = []).


(** A posted result answers a server: it echoes the server's id, ip and
    port and carries, for each of the two queries, a value or an error. *)
Definition answersJs {I} (server : QuerySpec.t I)
  (r : ServerJs.BatchResult.t I) : Prop :=
  echoes server (ServerJs.BatchResult.id r) (ServerJs.BatchResult.ip r)
    (ServerJs.BatchResult.port r)
  ∧ consistentJs (ServerJs.BatchResult.serverInfo r)
      (ServerJs.BatchResult.players r) (ServerJs.BatchResult.errors r).

Definition answersRelay {I} (server : QuerySpec.t I)
  (r : Relay.BatchResult.t I) : Prop :=
  echoes server (Relay.BatchResult.id r) (Relay.BatchResult.ip r)
    (Relay.BatchResult.port r)
  ∧ consistentRelay (Relay.BatchResult.serverInfo r)
      (Relay.BatchResult.players r) (Relay.BatchResult.errors r).



(** The results gathered after the batches before position [i]: one for
    each server before [i], each produced by the callback for the server
    at its own position. *)
Definition gathered {T R} (process : nat → T → option (Settled R))
  (servers : list T) (results : list R) (i : nat) : Prop :=
  length results = (i `min` length servers)%nat
  ∧ ∀ k r, results !! k = Some r →
      ∃ s, servers !! k = Some s ∧ process k s = Some (Resolved r).

(** * Properties *)

(** ** Reading a buffer *)

Lemma at_is_Some (data : Buffer) (i : nat) :
  (i < length data)%nat → ∃ b, at_ data i = Some b.
Proof.
  intros Hi. destruct (lookup_lt_is_Some_2 data i Hi) as [b Hb].
  exists (u8 b). unfold at_. by rewrite Hb.
Qed.

Lemma at_None (data : Buffer) (i : nat) :
  (length data ≤ i)%nat → at_ data i = None.
Proof. intros Hi. unfold at_. by rewrite lookup_ge_None_2. Qed.

(** ** The info decoder of [src/server.js] *)


Lemma parseBody_complete (data : Buffer) :
  (ServerJs.afterStrings data + 7 ≤ length data)%nat →
  ∃ info, fst (ServerJs.parseBody data 6%nat) = Normal info.
Proof.
  intros Hlen. unfold ServerJs.afterStrings in Hlen.
  unfold ServerJs.parseBody, bind, ServerJs.readString, get, throwIf in *.
  cbn in *. rewrite bool_decide_eq_false_2; [|lia].
  match goal with |- context [ServerJs.readShort data ?o] =>
    unfold ServerJs.readShort, readUInt16LE;
    destruct (at_is_Some data o ltac:(lia)) as [b0 ->];
    destruct (at_is_Some data (o + 1) ltac:(lia)) as [b1 ->]
  end.
  cbn. eauto.
Qed.

Lemma parseServerInfo_header_ok (data : Buffer) :
  (6 ≤ length data)%nat → at_ data 4 = Some 0x49 →
  ServerJs.parseServerInfo data
  = match fst (ServerJs.parseBody data 6%nat) with
    | Normal info => Normal info
    | Throw _ => Normal ServerJs.parseError
    end.
Proof.
  intros Hlen Htag. unfold ServerJs.parseServerInfo, tryCatch, ret.
  rewrite bool_decide_eq_false_2 by lia.
  rewrite bool_decide_eq_false_2 by (intros H; by apply H).
  cbn [orb].
  by destruct (ServerJs.parseBody data 6%nat) as [[info|err] offset].
Qed.

Lemma parseServerInfo_header_bad (data : Buffer) :
  (length data < 6)%nat ∨ at_ data 4 ≠ Some 0x49 →
  ServerJs.parseServerInfo data = Throw (Error "Invalid server info response").
Proof.
  intros Hbad. unfold ServerJs.parseServerInfo.
  destruct Hbad as [Hlen|Htag].
  - by rewrite bool_decide_eq_true_2.
  - rewrite (bool_decide_eq_true_2 (at_ data 4 ≠ Some 73)) by done.
    by rewrite orb_true_r.
Qed.

Lemma parsePlayerInfo_header_bad (data : Buffer) :
  (length data < 6)%nat ∨ at_ data 4 ≠ Some 0x44 →
  ServerJs.parsePlayerInfo data
  = Throw (Error "Invalid player info response").
Proof.
  intros Hbad. unfold ServerJs.parsePlayerInfo.
  destruct Hbad as [Hlen|Htag].
  - by rewrite bool_decide_eq_true_2.
  - rewrite (bool_decide_eq_true_2 (at_ data 4 ≠ Some 68)) by done.
    by rewrite orb_true_r.
Qed.

(** C10: in src/server.js, once the header check of the info decoder (at
    least 6 bytes, type tag 0x49) has passed, [parseServerInfo] raises
    nothing: it returns a value, and whenever its [try] block fails, for
    whatever reason, that value is the sentinel with name "Parse Error", map
    and game "Unknown" and every numeric field zero. *)
Theorem parseServerInfo_never_throws_past_header (data : Buffer) :
  (6 ≤ length data)%nat → at_ data 4 = Some 0x49 →
  (∃ info, ServerJs.parseServerInfo data = Normal info)
  ∧ (∀ err, fst (ServerJs.parseBody data 6%nat) = Throw err →
       ServerJs.parseServerInfo data = Normal ServerJs.parseError)
  ∧ ServerJs.parseError
    = ServerJs.ServerInfo.mk (lit "Parse Error") (lit "Unknown")
        (lit "Unknown") 0 0 0 0.
Proof.
  intros Hlen Htag. rewrite (parseServerInfo_header_ok data Hlen Htag).
  split; [|split; [|done]].
  - destruct (fst (ServerJs.parseBody data 6%nat)); eauto.
  - by intros err ->.
Qed.

Lemma parseServerInfo_never_throws_past_header_witness :
  (∃ info, ServerJs.parseServerInfo (bareInfoHeader ++ [x00]) = Normal info)
  ∧ (∀ err,
       fst (ServerJs.parseBody (bareInfoHeader ++ [x00]) 6%nat) = Throw err →
       ServerJs.parseServerInfo (bareInfoHeader ++ [x00])
       = Normal ServerJs.parseError)
  ∧ ServerJs.parseError
    = ServerJs.ServerInfo.mk (lit "Parse Error") (lit "Unknown")
        (lit "Unknown") 0 0 0 0.
Proof.
  apply (parseServerInfo_never_throws_past_header (bareInfoHeader ++ [x00])).
  - cbn. lia.
  - reflexivity.
Defined.

(** ** The info decoder of the second variant *)





(** ** Header validation *)

(** In src/server.js a buffer that is too short for the header, or that
    carries the wrong type tag, makes both decoders raise, and the message
    handler of the query turns the exception into a rejection of the
    promise: nothing is left uncaught. *)
Lemma serverjs_header_rejected (data : Buffer) :
  ((length data < 5)%nat ∨ at_ data 4 ≠ Some 0x49 →
   ServerJs.parseServerInfo data
   = Throw (Error "Invalid server info response")
   ∧ ∀ timeout ip port,
       let c := deliver ServerJs.onServerInfo (Message data)
                  (ServerJs.getServerInfo timeout ip port None) in
       promise c = Some (Rejected (Error "Invalid server info response"))
       ∧ uncaught c = [])
  ∧ ((length data < 5)%nat ∨ at_ data 4 ≠ Some 0x44 →
     ServerJs.parsePlayerInfo data
     = Throw (Error "Invalid player info response")).
Proof.
  split.
  - intros Hbad.
    assert (ServerJs.parseServerInfo data
            = Throw (Error "Invalid server info response")) as Hthrow.
    { apply parseServerInfo_header_bad. destruct Hbad; [left; lia|by right]. }
    split; [done|]. intros timeout ip port. cbn. unfold run. cbn.
    by rewrite Hthrow.
  - intros Hbad. apply parsePlayerInfo_header_bad.
    destruct Hbad; [left; lia|by right].
Qed.

(** C2: the decoders of the second variant validate no header.  On a
    four-byte buffer and on a buffer tagged 0x41, [parseA2SInfo] returns a
    ServerInfo, and [parseA2SPlayers] returns a player list, where the claim
    asks for a MalformedResponse error; [queryServer] then reports the
    datagram as a success. *)
Theorem relay_decoders_accept_bad_header :
  Relay.parseA2SInfo shortDatagram
  = Normal (Relay.ServerInfo.mk [] [] [] [] (Some 0) (Some 0) None None None)
  ∧ Relay.parseA2SPlayers shortDatagram = Normal []
  ∧ at_ challengeDatagram 4 = Some 0x41
  ∧ Relay.parseA2SInfo challengeDatagram
    = Normal (Relay.ServerInfo.mk [1; 2; 3; 4] [] [] [] (Some 0) (Some 0)
                None None None)
  ∧ Relay.parseA2SPlayers challengeDatagram = Normal []
  ∧ promise (deliver Relay.onServer (Message shortDatagram)
               (Relay.queryServer "203.0.113.7" 28015 5000 None))
    = Some (Resolved
              (Relay.Success
                 (Relay.ServerInfo.mk [] [] [] [] (Some 0) (Some 0)
                    None None None))).
Proof. repeat split; reflexivity. Qed.

(** ** The info scenario *)

Lemma infoScenario_serverjs :
  ServerJs.parseServerInfo infoScenario
  = Normal (ServerJs.ServerInfo.mk (lit "y Server") (lit "de_dust2")
              (lit "Counter-Strike") 16 32 0 240).
Proof. reflexivity. Qed.

Lemma infoScenario_relay :
  Relay.parseA2SInfo infoScenario
  = Normal (Relay.ServerInfo.mk (lit "My Server") (lit "de_dust2")
              (lit "csgo") (lit "Counter-Strike") (Some 0) (Some 0)
              None None None).
Proof. reflexivity. Qed.

(** C3, counterexample: neither decoder yields the expected ServerInfo on
    the scenario's buffer.  src/server.js skips the byte at offset 5, so the
    name loses its first letter; the second variant finds 7 bytes where it
    asks for 8, so players and maxPlayers are 0. *)
Lemma info_scenario_counterexample :
  (¬ ∃ info, ServerJs.parseServerInfo infoScenario = Normal info
             ∧ scenarioExpectedServerJs info)
  ∧ (¬ ∃ info, Relay.parseA2SInfo infoScenario = Normal info
               ∧ scenarioExpectedRelay info).
Proof.
  split.
  - intros (info & Hinfo & Hname & _). rewrite infoScenario_serverjs in Hinfo.
    injection Hinfo as <-. discriminate Hname.
  - intros (info & Hinfo & _ & _ & _ & _ & Hplayers & _).
    rewrite infoScenario_relay in Hinfo.
    injection Hinfo as <-. discriminate Hplayers.
Qed.

(** C3, as amended: on the scenario's buffer [parseServerInfo] of
    src/server.js yields name "y Server", map "de_dust2", game
    "Counter-Strike", players 16, maxPlayers 32, bots 0 and appId 240, in a
    result that has no folder, serverType or environment; [parseA2SInfo] of
    the second variant yields name "My Server", map "de_dust2", folder
    "csgo", game "Counter-Strike", players 0 and maxPlayers 0, and no
    further field. *)
Theorem info_scenario_decoded :
  ServerJs.parseServerInfo infoScenario
  = Normal (ServerJs.ServerInfo.mk (lit "y Server") (lit "de_dust2")
              (lit "Counter-Strike") 16 32 0 240)
  ∧ Relay.parseA2SInfo infoScenario
    = Normal (Relay.ServerInfo.mk (lit "My Server") (lit "de_dust2")
                (lit "csgo") (lit "Counter-Strike") (Some 0) (Some 0)
                None None None).
Proof. split; [apply infoScenario_serverjs|apply infoScenario_relay]. Qed.

(** ** The player decoders *)

(** C4: on a response with count 3 at offset 5, two complete entries and a
    truncated third one, [parsePlayerInfo] of src/server.js returns no
    entry at all, because it takes the byte at offset 6 (the index of the
    first entry) for the count; [parseA2SPlayers] returns the two complete
    entries.  [parseA2SPlayers] in turn advances by the length of the
    decoded name rather than by its byte length, and misreads the score of
    an entry whose name is not ASCII. *)
Theorem parsePlayerInfo_misreads_count :
  at_ playersScenario 4 = Some 0x44
  ∧ at_ playersScenario 5 = Some 3
  ∧ ServerJs.parsePlayerInfo playersScenario = Normal []
  ∧ Relay.parseA2SPlayers playersScenario
    = Normal [Relay.PlayerEntry.mk 0 (lit "a") 1 0x3F800000;
              Relay.PlayerEntry.mk 1 (lit "b") 2 0x40000000]
  ∧ readInt32LE accentedPlayer 10 = Some 5
  ∧ Relay.parseA2SPlayers accentedPlayer
    = Normal [Relay.PlayerEntry.mk 0 [0xE9] 1280 0x80000000].
Proof. repeat split; reflexivity. Qed.

(** ** Names in the player list of [src/server.js] *)







Lemma playerLoop_filter (data : Buffer) (left offset : nat)
  (acc : list ServerJs.PlayerEntry.t) :
  ServerJs.playerLoop data left offset acc
  = acc ++ (trimName <$>
            filter (λ e, ServerJs.PlayerEntry.name e ≠ [])
                   (completeEntries data left offset)).
Proof.
  revert offset acc. induction left as [|left IH]; intros offset acc; cbn.
  { by rewrite app_nil_r. }
  destruct (at_ data offset) as [index|]; [|by rewrite app_nil_r].
  case_bool_decide; [by rewrite app_nil_r|].
  destruct (readInt32LE data _) as [score|]; [|by rewrite app_nil_r].
  destruct (readFloatLE data _) as [duration|]; [|by rewrite app_nil_r].
  rewrite IH.
  destruct (utf8 _) as [|u name] eqn:Hname.
  - by rewrite filter_cons_False by (cbn; auto).
  - rewrite filter_cons_True by done. cbn. by rewrite <- app_assoc.
Qed.







(** ** The life cycle of one query *)

Lemma deliverAll_invariant {X A} (P : Call X A → Prop)
  (on : Event → Eff (Call X A) ()) (evs : list Event) (c : Call X A) :
  (∀ ev c, P c → P (deliver on ev c)) → P c → P (deliverAll on evs c).
Proof.
  intros Hstep. unfold deliverAll. revert c.
  induction evs as [|ev evs IH]; intros c Hc; cbn; [done|].
  apply IH. by apply Hstep.
Qed.

Ltac run_handler :=
  cbv [deliver deliverAll run bind ret throw tryCatch resolve reject settle
       close clearTimeout setTimeout send sendOrThrow getLocal setLocal fresh
       ServerJs.getServerInfo ServerJs.onServerInfo
       ServerJs.getPlayers ServerJs.onPlayers
       Relay.queryServer Relay.onServer Relay.unlessResolved
       Relay.queryPlayers Relay.onQueryPlayers Relay.unlessResolved2];
  cbn.

Ltac lifecycle_step :=
  unfold lifecycle; run_handler;
  repeat (case_match; cbn in *; simplify_eq; try done);
  try (intuition (simplify_eq; (done || lia))).

Lemma getServerInfo_lifecycle timeout ip port sync evs :
  lifecycle timeout
    (deliverAll ServerJs.onServerInfo evs
       (ServerJs.getServerInfo timeout ip port sync)).
Proof.
  apply deliverAll_invariant.
  - intros ev [cc ts tm ps sn pr un lo] (Hts & Htm). cbn in *.
    destruct ev as [|[err|]|msg|err], tm as [t|], cc as [|cc];
      lifecycle_step.
  - destruct sync; lifecycle_step.
Qed.

Lemma getPlayers_lifecycle timeout ip port sync evs :
  lifecycle timeout
    (deliverAll (ServerJs.onPlayers ip port) evs
       (ServerJs.getPlayers timeout ip port sync)).
Proof.
  apply deliverAll_invariant.
  - intros ev [cc ts tm ps sn pr un lo] (Hts & Htm). cbn in *.
    destruct ev as [|[err|]|msg|err], tm as [t|], cc as [|cc];
      lifecycle_step.
  - destruct sync; lifecycle_step.
Qed.

Ltac guarded_step :=
  unfold guarded, lifecycle; run_handler;
  repeat (case_match; cbn in *; simplify_eq; try done);
  try (intuition (simplify_eq; (done || lia))).

Lemma queryServer_guarded timeout ip port evs :
  guarded id timeout
    (deliverAll Relay.onServer evs (Relay.queryServer ip port timeout None)).
Proof.
  apply deliverAll_invariant.
  - intros ev [cc ts tm ps sn pr un lo] ((Hts & Htm) & Hcc & Hun & Hres & Hpr).
    cbn in *.
    destruct ev as [|[err|]|msg|err], tm as [t|], cc as [|cc];
      guarded_step.
  - guarded_step.
Qed.

Lemma queryPlayers_guarded timeout ip port evs :
  guarded fst timeout
    (deliverAll (Relay.onQueryPlayers ip port) evs
       (Relay.queryPlayers ip port timeout None)).
Proof.
  apply deliverAll_invariant.
  - intros ev [cc ts tm ps sn pr un [res step]]
      ((Hts & Htm) & Hcc & Hun & Hres & Hpr).
    cbn in *.
    destruct ev as [|[err|]|msg|err], tm as [t|], cc as [|cc];
      guarded_step.
  - guarded_step.
Qed.

Ltac refused_step :=
  unfold refused; run_handler;
  repeat (case_match; cbn in *; simplify_eq; try done);
  try (intuition (simplify_eq; (done || lia))).


Lemma queryPlayers_refused timeout ip port e evs :
  refused fst timeout e
    (deliverAll (Relay.onQueryPlayers ip port) evs
       (Relay.queryPlayers ip port timeout (Some e))).
Proof.
  apply deliverAll_invariant.
  - intros ev [cc ts tm ps sn pr un [res step]]
      (Hts & Hpr & Hun & Hps & Htm).
    cbn in *.
    destruct ev as [|[err|]|msg|err], tm as [t|], cc as [|cc];
      refused_step.
  - refused_step.
Qed.

Lemma deliverAll_timer_gone {X A} (on : Event → Eff (Call X A) ())
  (evs : list Event) (c : Call X A) :
  timerStable on →
  TimerFires ∈ evs ∨ timer c = None → timer (deliverAll on evs c) = None.
Proof.
  intros Hstable. unfold deliverAll. revert c.
  induction evs as [|ev evs IH]; intros c [Hin|Hgone]; cbn.
  - by apply elem_of_nil in Hin.
  - done.
  - apply elem_of_cons in Hin as [<-|Hin].
    + apply IH. right. apply Hstable. by left.
    + apply IH. by left.
  - apply IH. right. apply Hstable. by right.
Qed.

Ltac stable_step :=
  intros ev [cc ts tm ps sn pr un lo] Hev; cbn in *;
  destruct ev as [|[err|]|msg|err], tm as [t|], cc as [|cc];
  run_handler;
  repeat (case_match; cbn in *; simplify_eq; try done);
  try (intuition (simplify_eq; done)).

Lemma onServerInfo_timerStable : timerStable ServerJs.onServerInfo.
Proof. stable_step. Qed.

Lemma onPlayers_timerStable ip port :
  timerStable (ServerJs.onPlayers ip port).
Proof. stable_step. Qed.

Lemma onServer_timerStable : timerStable Relay.onServer.
Proof. stable_step. Qed.

Lemma onQueryPlayers_timerStable ip port :
  timerStable (Relay.onQueryPlayers ip port).
Proof. stable_step. Qed.

Lemma lifecycle_settled {X A} timeout (c : Call X A) :
  lifecycle timeout c → timer c = None →
  (1 ≤ closeCalls c)%nat ∧ ∃ s, promise c = Some s.
Proof.
  intros (_ & Htm) Hgone. rewrite Hgone in Htm. destruct Htm as [Hcc Hpr].
  split; [done|]. destruct (promise c); [eauto|done].
Qed.

(** With no uncaught exception the handler is resumed with the settlement
    of the promise. *)
Lemma await_promise {X A} (c : Call X A) :
  uncaught c = [] → await c = promise c.
Proof. unfold await. by intros ->. Qed.

Lemma guarded_settled {X A} resolved timeout (c : Call X A) :
  guarded resolved timeout c → timer c = None →
  closeCalls c = 1%nat ∧ ∃ v, await c = Some (Resolved v).
Proof.
  intros (Hlife & Hcc & Hun & _ & Hpr) Hgone.
  destruct (lifecycle_settled timeout c Hlife Hgone) as [Hone [s Hs]].
  split; [lia|]. rewrite (await_promise c Hun). rewrite Hs in Hpr |- *.
  destruct s as [v|reason]; [eauto|]. by destruct (Hpr reason).
Qed.

(** Every query of the second variant whose first send does not raise
    closes its socket exactly once: at most once along any sequence of
    events, with no exception raised, and exactly once as soon as the
    promise is settled, which it is at the latest when the deadline is
    reached. *)
Lemma relay_closes_exactly_once timeout ip port evs :
  let c := deliverAll Relay.onServer evs
             (Relay.queryServer ip port timeout None) in
  let d := deliverAll (Relay.onQueryPlayers ip port) evs
             (Relay.queryPlayers ip port timeout None) in
  ((closeCalls c ≤ 1)%nat ∧ uncaught c = []
   ∧ (promise c ≠ None ↔ closeCalls c = 1%nat)
   ∧ (TimerFires ∈ evs → closeCalls c = 1%nat))
  ∧ ((closeCalls d ≤ 1)%nat ∧ uncaught d = []
     ∧ (promise d ≠ None ↔ closeCalls d = 1%nat)
     ∧ (TimerFires ∈ evs → closeCalls d = 1%nat)).
Proof.
  intros c d.
  pose proof (queryServer_guarded timeout ip port evs) as Hc.
  pose proof (queryPlayers_guarded timeout ip port evs) as Hd.
  fold c in Hc. fold d in Hd. split.
  - pose proof Hc as ((_ & Htm) & Hcc & Hun & _ & _).
    repeat split; try done.
    + intros Hpr. destruct (timer c); [by destruct Htm as (_ & _ & ?)|].
      destruct Htm. lia.
    + intros Hone. destruct (timer c); [|tauto].
      destruct Htm as (_ & ? & _). lia.
    + intros Hin. eapply guarded_settled; [done|].
      apply deliverAll_timer_gone; [apply onServer_timerStable|by left].
  - pose proof Hd as ((_ & Htm) & Hcc & Hun & _ & _).
    repeat split; try done.
    + intros Hpr. destruct (timer d); [by destruct Htm as (_ & _ & ?)|].
      destruct Htm. lia.
    + intros Hone. destruct (timer d); [|tauto].
      destruct Htm as (_ & ? & _). lia.
    + intros Hin. eapply guarded_settled; [done|].
      apply deliverAll_timer_gone; [apply onQueryPlayers_timerStable|by left].
Qed.

(** In src/server.js no query is left open: the socket is closed as soon as
    the promise is settled, which it is at the latest when the deadline is
    reached. *)
Lemma serverjs_never_left_open timeout ip port sync evs :
  let c := deliverAll ServerJs.onServerInfo evs
             (ServerJs.getServerInfo timeout ip port sync) in
  let d := deliverAll (ServerJs.onPlayers ip port) evs
             (ServerJs.getPlayers timeout ip port sync) in
  (promise c ≠ None ↔ (1 ≤ closeCalls c)%nat)
  ∧ (promise d ≠ None ↔ (1 ≤ closeCalls d)%nat)
  ∧ (TimerFires ∈ evs → (1 ≤ closeCalls c)%nat ∧ (1 ≤ closeCalls d)%nat).
Proof.
  intros c d.
  pose proof (getServerInfo_lifecycle timeout ip port sync evs) as [_ Hc].
  pose proof (getPlayers_lifecycle timeout ip port sync evs) as [_ Hd].
  fold c in Hc. fold d in Hd. split; [|split].
  - destruct (timer c); [destruct Hc as (_ & -> & ->)|]; intuition (done || lia).
  - destruct (timer d); [destruct Hd as (_ & -> & ->)|]; intuition (done || lia).
  - intros Hin. split.
    + eapply lifecycle_settled; [apply getServerInfo_lifecycle|].
      apply deliverAll_timer_gone; [apply onServerInfo_timerStable|by left].
    + eapply lifecycle_settled; [apply getPlayers_lifecycle|].
      apply deliverAll_timer_gone; [apply onPlayers_timerStable|by left].
Qed.

(** ** The challenge phase *)

(** While [queryPlayers] of the second variant awaits the challenge, every
    datagram whose byte at offset 4 is not 0x41 resolves the call with
    'Invalid challenge response', whatever its length. *)
Lemma queryPlayers_challenge_strict ip port (msg : Buffer)
  (c : Call (bool * Relay.Step) (Relay.Outcome (list Relay.PlayerEntry.t))) :
  local c = (false, Relay.challenge) → closeCalls c = 0%nat →
  promise c = None → at_ msg 4 ≠ Some 0x41 →
  let c' := deliver (Relay.onQueryPlayers ip port) (Message msg) c in
  promise c' = Some (Resolved (Relay.Failure "Invalid challenge response"))
  ∧ closeCalls c' = 1%nat ∧ timer c' = None ∧ sent c' = sent c.
Proof.
  destruct c as [cc ts tm ps sn pr un lo]. cbn. intros -> -> -> Htag.
  run_handler. rewrite (bool_decide_eq_false_2 _ Htag), andb_false_r. by cbn.
Qed.

(** C1: [getPlayers] of src/server.js takes the first datagram of at least
    9 bytes for the challenge without looking at its type tag.  A 9-byte
    datagram tagged 0x44 is answered with a player request built from its
    bytes 5 to 8 and the call stays pending, and a 6-byte datagram tagged
    0x44 resolves the call with an empty player list; in neither case is
    the call rejected as the claim requires. *)
Theorem getPlayers_accepts_untagged_challenge :
  at_ untaggedDatagram 4 = Some 0x44
  ∧ (let c := deliver (ServerJs.onPlayers "203.0.113.7" 28015)
                (Message untaggedDatagram)
                (ServerJs.getPlayers 3000 "203.0.113.7" 28015 None) in
     promise c = None ∧ local c = true ∧ closeCalls c = 0%nat
     ∧ sent c = [(ServerJs.challengePacket, 28015, "203.0.113.7"%string);
                 (fromArray [0xFF; 0xFF; 0xFF; 0xFF; 0x55; 1; 2; 3; 4],
                  28015, "203.0.113.7"%string)])
  ∧ at_ emptyRoster 4 = Some 0x44
  ∧ promise (deliver (ServerJs.onPlayers "203.0.113.7" 28015)
               (Message emptyRoster)
               (ServerJs.getPlayers 3000 "203.0.113.7" 28015 None))
    = Some (Resolved []).
Proof. repeat split; reflexivity. Qed.

(** ** The timeout *)

(** Accepting the challenge reply: the request with the challenge is sent
    and the call enters its second leg; nothing else changes. *)
Lemma getPlayers_accepts_challenge ip port (msg : Buffer) ts t ps sn un :
  (9 ≤ length msg)%nat →
  deliver (ServerJs.onPlayers ip port) (Message msg)
    (mkCall 0 ts (Some t) ps sn None un false)
  = mkCall 0 ts (Some t) (S ps)
      (sn ++ [(ServerJs.playerPacket (slice msg 5 9), port, ip)])
      None un true.
Proof. intros Hlen. run_handler. by rewrite bool_decide_eq_true_2. Qed.

Lemma queryPlayers_accepts_challenge ip port (msg : Buffer) ts t ps sn un :
  (9 ≤ length msg)%nat → at_ msg 4 = Some 0x41 →
  deliver (Relay.onQueryPlayers ip port) (Message msg)
    (mkCall 0 ts (Some t) ps sn None un (false, Relay.challenge))
  = mkCall 0 ts (Some t) ps
      (sn ++ [(Relay.playerPacket (slice msg 5 9), port, ip)])
      None un (false, Relay.players).
Proof.
  intros Hlen Htag. run_handler. by rewrite !bool_decide_eq_true_2.
Qed.

(** C7: in the player query of either variant [setTimeout] is called once,
    at the start of the call, and no callback arms a timer.  Along every
    sequence of events, as long as the call is pending the timer armed at
    the start is still armed, with the delay it was armed with, whichever
    leg the call is in, and its firing settles the call with Timeout.
    Accepting the challenge reply moves a pending call to its second leg
    and leaves it pending under that same timer, whose firing then settles
    it with Timeout.  A call whose first send went out starts pending, in
    its first leg. *)
Theorem single_timer_spans_both_legs timeout ip port sync evs :
  (let on := ServerJs.onPlayers ip port in
   let c := deliverAll on evs (ServerJs.getPlayers timeout ip port sync) in
   timersSet c = 1%nat
   ∧ (timer c = None ∨ timer c = Some timeout)
   ∧ (promise c = None → timer c = Some timeout)
   ∧ (promise c = None →
      promise (deliver on TimerFires c) = Some (Rejected (Error "Timeout")))
   ∧ (∀ msg, promise c = None → local c = false →
        (9 ≤ length msg)%nat →
        let c' := deliver on (Message msg) c in
        local c' = true ∧ promise c' = None ∧ timer c' = Some timeout
        ∧ timersSet c' = 1%nat
        ∧ promise (deliver on TimerFires c')
          = Some (Rejected (Error "Timeout")))
   ∧ (let start := ServerJs.getPlayers timeout ip port None in
      promise start = None ∧ local start = false))
  ∧ (let on := Relay.onQueryPlayers ip port in
     let c := deliverAll on evs (Relay.queryPlayers ip port timeout sync) in
     timersSet c = 1%nat
     ∧ (timer c = None ∨ timer c = Some timeout)
     ∧ (promise c = None → timer c = Some timeout)
     ∧ (promise c = None →
        promise (deliver on TimerFires c)
        = Some (Resolved (Relay.Failure "Timeout")))
     ∧ (∀ msg, promise c = None →
          snd (local c) = Relay.challenge →
          (9 ≤ length msg)%nat → at_ msg 4 = Some 0x41 →
          let c' := deliver on (Message msg) c in
          snd (local c') = Relay.players ∧ promise c' = None
          ∧ timer c' = Some timeout ∧ timersSet c' = 1%nat
          ∧ promise (deliver on TimerFires c')
            = Some (Resolved (Relay.Failure "Timeout")))
     ∧ (let start := Relay.queryPlayers ip port timeout None in
        promise start = None ∧ snd (local start) = Relay.challenge)).
Proof.
  split.
  - intros on c.
    pose proof (getPlayers_lifecycle timeout ip port sync evs) as Hc.
    fold on c in Hc. destruct c as [cc ts tm ps sn pr un lo].
    destruct Hc as [Hts Htm].
    cbn [timersSet timer closeCalls promise local] in *.
    split; [done|]. split; [|split; [|split; [|split]]].
    + destruct tm; [right; f_equal; tauto|by left].
    + intros ->. destruct tm; [f_equal; tauto|]. by destruct Htm.
    + intros ->. destruct tm as [t|]; [|by destruct Htm].
      destruct Htm as (_ & -> & _). by subst on.
    + intros msg -> -> Hlen. destruct tm as [t|]; [|by destruct Htm].
      destruct Htm as (-> & -> & _). subst on. cbv zeta.
      rewrite getPlayers_accepts_challenge by done.
      by repeat split.
    + done.
  - intros on c. destruct sync as [e|].
    + pose proof (queryPlayers_refused timeout ip port e evs) as Hc.
      fold on c in Hc. destruct c as [cc ts tm ps sn pr un [res step]].
      destruct Hc as (Hts & Hpr & _ & _ & Htm).
      cbn [timersSet timer closeCalls promise local] in *.
      split; [done|]. split; [|split; [|split; [|split]]]; try congruence.
      * destruct tm; [right; f_equal; tauto|by left].
      * done.
    + pose proof (queryPlayers_guarded timeout ip port evs) as Hc.
      fold on c in Hc. destruct c as [cc ts tm ps sn pr un [res step]].
      destruct Hc as ([Hts Htm] & _ & _ & Hres & _).
      cbn [timersSet timer closeCalls promise local fst snd] in *.
      split; [done|]. split; [|split; [|split; [|split]]].
      * destruct tm; [right; f_equal; tauto|by left].
      * intros ->. destruct tm; [f_equal; tauto|]. by destruct Htm.
      * intros ->. destruct tm as [t|]; [|by destruct Htm].
        destruct Htm as (_ & -> & _). subst on. cbn in Hres. by subst res.
      * intros msg -> -> Hlen Htag. destruct tm as [t|]; [|by destruct Htm].
        destruct Htm as (-> & -> & _). cbn in Hres. subst res. subst on.
        cbv zeta. rewrite queryPlayers_accepts_challenge by done.
        by repeat split.
      * done.
Qed.

Lemma single_timer_spans_both_legs_witness :
  (let c := deliver (ServerJs.onPlayers "203.0.113.7" 28015)
              (Message challengeDatagram)
              (ServerJs.getPlayers 3000 "203.0.113.7" 28015 None) in
   local c = true ∧ promise c = None ∧ timer c = Some 3000
   ∧ timersSet c = 1%nat
   ∧ promise (deliver (ServerJs.onPlayers "203.0.113.7" 28015)
                TimerFires c)
     = Some (Rejected (Error "Timeout")))
  ∧ (let c := deliver (Relay.onQueryPlayers "203.0.113.7" 28015)
                (Message challengeDatagram)
                (Relay.queryPlayers "203.0.113.7" 28015 5000 None) in
     snd (local c) = Relay.players ∧ promise c = None
     ∧ timer c = Some 5000 ∧ timersSet c = 1%nat
     ∧ promise (deliver (Relay.onQueryPlayers "203.0.113.7" 28015)
                  TimerFires c)
       = Some (Resolved (Relay.Failure "Timeout"))).
Proof.
  split.
  - pose proof (single_timer_spans_both_legs 3000 "203.0.113.7" 28015 None
                  []) as [(_ & _ & _ & _ & H & _) _].
    apply (H challengeDatagram); [reflexivity|reflexivity|cbn; lia].
  - pose proof (single_timer_spans_both_legs 5000 "203.0.113.7" 28015 None
                  []) as [_ (_ & _ & _ & _ & H & _)].
    apply (H challengeDatagram);
      [reflexivity|reflexivity|cbn; lia|reflexivity].
Defined.

(** ** Closing the socket *)

(** C8: in src/server.js nothing keeps a second callback from closing the
    socket again.  When the timer fires first and the callback of the
    pending send then reports an error, [client.close()] is called a second
    time, on a socket that is no longer running, and the exception it raises
    escapes the callback; the second variant checks [resolved] in every
    callback and closes once. *)
Theorem serverjs_closes_twice :
  (let c := deliverAll ServerJs.onServerInfo lateSendFailure
              (ServerJs.getServerInfo 3000 "example.invalid" 28015 None) in
   closeCalls c = 2%nat ∧ uncaught c = [NotRunning]
   ∧ promise c = Some (Rejected (Error "Timeout")))
  ∧ (let c := deliverAll (ServerJs.onPlayers "example.invalid" 28015)
                lateSendFailure
                (ServerJs.getPlayers 3000 "example.invalid" 28015 None) in
     closeCalls c = 2%nat ∧ uncaught c = [NotRunning])
  ∧ (let c := deliverAll Relay.onServer lateSendFailure
                (Relay.queryServer "example.invalid" 28015 3000 None) in
     closeCalls c = 1%nat ∧ uncaught c = []
     ∧ promise c = Some (Resolved (Relay.Failure "Timeout"))).
Proof. repeat split; reflexivity. Qed.

(** ** [Promise.all] *)

Lemma mapM_id_filled {A} (values : list (option A)) (all vs : list A) :
  mapM id values = Some all →
  Forall2 (λ slot v, slot = None ∨ slot = Some v) values vs →
  all = vs.
Proof.
  intros Hall Hslots. apply mapM_Some in Hall.
  revert all Hall. induction Hslots as [|slot v values vs Hslot _ IH];
    intros all Hall; inversion Hall as [|? w ? all' Hw Hall']; subst; [done|].
  cbn in Hw. f_equal; [|by apply IH].
  destruct Hslot; congruence.
Qed.

Lemma mapM_id_unfilled {A} (values : list (option A)) :
  mapM id values = None → ∃ i, values !! i = Some None.
Proof.
  induction values as [|[v|] values IH]; cbn; [done| |by exists 0%nat].
  destruct (mapM id values) eqn:Hrest; [done|].
  intros _. destruct IH as [i Hi]; [done|]. by exists (S i).
Qed.

Lemma allLoop_resolved {A} (vs : list A) (order : list nat)
  (values : list (option A)) :
  Forall2 (λ slot v, slot = None ∨ slot = Some v) values vs →
  mapM id values = None →
  (∀ i, values !! i = Some None → i ∈ order) →
  allLoop ((Some ∘ Resolved) <$> vs) order values = Some (Resolved vs).
Proof.
  revert values. induction order as [|index order IH];
    intros values Hslots Hpending Horder.
  - destruct (mapM_id_unfilled values Hpending) as [i Hi].
    by apply Horder, elem_of_nil in Hi.
  - cbn. rewrite list_lookup_fmap.
    destruct (vs !! index) as [v|] eqn:Hv; cbn.
    + assert (Forall2 (λ slot v, slot = None ∨ slot = Some v)
                (<[index:=Some v]> values) vs) as Hslots'.
      { rewrite <- (list_insert_id vs index v Hv).
        apply Forall2_insert; [done|by right]. }
      destruct (mapM id (<[index:=Some v]> values)) as [all|] eqn:Hall.
      * by rewrite (mapM_id_filled _ _ _ Hall Hslots').
      * apply IH; [done..|]. intros i Hi.
        destruct (decide (i = index)) as [->|Hne].
        { rewrite list_lookup_insert_eq in Hi; [done|].
          rewrite (Forall2_length _ _ _ Hslots). by eapply lookup_lt_Some. }
        rewrite list_lookup_insert_ne in Hi by done.
        apply Horder, elem_of_cons in Hi as [?|?]; done.
    + apply IH; [done..|]. intros i Hi.
      pose proof (Horder i Hi) as [->|?]%elem_of_cons; [|done].
      apply lookup_lt_Some in Hi. apply lookup_ge_None in Hv.
      rewrite (Forall2_length _ _ _ Hslots) in Hi. lia.
Qed.

(** When every input is fulfilled and every input completes, the result
    lists the values in the order of the inputs, whatever the order of
    completion. *)
Lemma promiseAll_resolved {A} (vs : list A) (order : list nat) :
  (∀ i, (i < length vs)%nat → i ∈ order) →
  promiseAll ((Some ∘ Resolved) <$> vs) order = Some (Resolved vs).
Proof.
  intros Horder. destruct vs as [|v vs]; [done|].
  change (promiseAll ((Some ∘ Resolved) <$> v :: vs) order)
    with (allLoop ((Some ∘ Resolved) <$> v :: vs) order
            (replicate (length ((Some ∘ @Resolved A) <$> v :: vs)) None)).
  apply allLoop_resolved.
  - rewrite length_fmap. generalize (v :: vs). intros l.
    induction l; cbn; constructor; auto.
  - done.
  - intros i Hi. apply Horder. apply lookup_lt_Some in Hi.
    by rewrite length_replicate, length_fmap in Hi.
Qed.

Lemma promiseAll2_resolved {A B} (a : A) (b : B) (order : list nat) :
  0%nat ∈ order → 1%nat ∈ order →
  promiseAll2 (Some (Resolved a)) (Some (Resolved b)) order
  = Some (Resolved (a, b)).
Proof.
  intros H0 H1. unfold promiseAll2. cbn [fmap option_fmap option_map mapSettled].
  change [Some (Resolved (inl a)); Some (Resolved (inr b))]
    with ((Some ∘ Resolved) <$> [@inl A B a; inr b]).
  rewrite promiseAll_resolved; [done|].
  intros [|[|i]] Hi; cbn in Hi; [done|done|lia].
Qed.


(** ** The batch endpoint *)

Lemma serverjs_processServer_settles {I} (net : ServerJs.Network) (k : nat)
  (server : QuerySpec.t I) :
  TimerFires ∈ ServerJs.infoEvents net k →
  TimerFires ∈ ServerJs.playersEvents net k →
  survivesJs net k (QuerySpec.ip server) (QuerySpec.port server) →
  ∃ r, ServerJs.processServer net k server = Some (Resolved r)
       ∧ echoes server (ServerJs.BatchResult.id r)
           (ServerJs.BatchResult.ip r) (ServerJs.BatchResult.port r).
Proof.
  intros Hinfo Hplayers [Hi Hp]. unfold ServerJs.processServer. cbv zeta.
  rewrite (await_promise _ Hi), (await_promise _ Hp).
  destruct (lifecycle_settled _ _
              (getServerInfo_lifecycle 3000 (QuerySpec.ip server)
                 (QuerySpec.port server) (ServerJs.infoSync net k)
                 (ServerJs.infoEvents net k))
              (deliverAll_timer_gone _ _ _ onServerInfo_timerStable
                 (or_introl Hinfo))) as [_ [info ->]].
  destruct (lifecycle_settled _ _
              (getPlayers_lifecycle 3000 (QuerySpec.ip server)
                 (QuerySpec.port server) (ServerJs.playersSync net k)
                 (ServerJs.playersEvents net k))
              (deliverAll_timer_gone _ _ _
                 (onPlayers_timerStable _ _) (or_introl Hplayers)))
    as [_ [roster ->]].
  cbn. eexists. split; [done|]. by cbn.
Qed.

Lemma relay_processServer_settles {I} (net : Relay.Network) (k : nat)
  (server : QuerySpec.t I) :
  Relay.infoSync net k = None → Relay.playersSync net k = None →
  TimerFires ∈ Relay.infoEvents net k →
  TimerFires ∈ Relay.playersEvents net k →
  0%nat ∈ Relay.pairCompletion net k → 1%nat ∈ Relay.pairCompletion net k →
  ∃ r, Relay.processServer net k server = Some (Resolved r)
       ∧ echoes server (Relay.BatchResult.id r)
           (Relay.BatchResult.ip r) (Relay.BatchResult.port r).
Proof.
  intros Hsi Hsp Hinfo Hplayers H0 H1. unfold Relay.processServer.
  cbv zeta. rewrite Hsi, Hsp.
  destruct (guarded_settled _ _ _
              (queryServer_guarded 5000 (QuerySpec.ip server)
                 (QuerySpec.port server) (Relay.infoEvents net k))
              (deliverAll_timer_gone _ _ _ onServer_timerStable
                 (or_introl Hinfo))) as [_ [info ->]].
  destruct (guarded_settled _ _ _
              (queryPlayers_guarded 5000 (QuerySpec.ip server)
                 (QuerySpec.port server) (Relay.playersEvents net k))
              (deliverAll_timer_gone _ _ _
                 (onQueryPlayers_timerStable _ _) (or_introl Hplayers)))
    as [_ [roster ->]].
  rewrite promiseAll2_resolved by done.
  eexists. split; [done|]. by cbn.
Qed.

(** A window whose callbacks all fulfil. *)
Lemma window_fulfilled {T R} (f : nat → T → option (Settled R))
  (P : nat → T → R → Prop) (n : nat) (batch : list T) :
  (∀ j s, batch !! j = Some s →
     ∃ r, f (n + j)%nat s = Some (Resolved r) ∧ P (n + j)%nat s r) →
  ∃ rs, imap (λ j, f (n + j)%nat) batch = (Some ∘ Resolved) <$> rs
        ∧ length rs = length batch
        ∧ ∀ j s, batch !! j = Some s →
            ∃ r, rs !! j = Some r ∧ P (n + j)%nat s r.
Proof.
  revert n. induction batch as [|s batch IH]; intros n Hall.
  { exists []. by split. }
  destruct (Hall 0%nat s eq_refl) as (r & Hr & HP).
  destruct (IH (S n)) as (rs & Hrs & Hlen & Hlook).
  { intros j s' Hj. destruct (Hall (S j) s' Hj) as (r' & Hr' & HP').
    exists r'. by replace (S n + j)%nat with (n + S j)%nat by lia. }
  exists (r :: rs). split; [|split].
  - rewrite imap_cons, Hr, fmap_cons. f_equal. rewrite <- Hrs.
    apply imap_ext. intros j s' _. unfold compose.
    by replace (S n + j)%nat with (n + S j)%nat by lia.
  - cbn. by rewrite Hlen.
  - intros [|j] s' Hj.
    + injection Hj as <-. exists r. split; [done|]. exact HP.
    + destruct (Hlook j s' Hj) as (r' & ? & ?). exists r'.
      by replace (n + S j)%nat with (S n + j)%nat by lia.
Qed.

Lemma answered_window {T R} (P : nat → T → R → Prop) (servers : list T)
  (results rs : list R) (i size : nat) :
  answered P servers results i → (i < length servers)%nat →
  length rs = length (slice servers i (i + size)) →
  (∀ j s, slice servers i (i + size) !! j = Some s →
     ∃ r, rs !! j = Some r ∧ P (i + j)%nat s r) →
  answered P servers (results ++ rs) (i + size).
Proof.
  intros [Hlen Hres] Hi Hrs Hwin. unfold slice in *.
  replace (i + size - i)%nat with size in * by lia. split.
  - rewrite length_app, Hlen, Hrs, length_take, length_drop. lia.
  - intros k s Hk Hs. destruct (decide (k < i)%nat) as [Hlt|Hge].
    + destruct (Hres k s Hlt Hs) as (r & Hr & HP). exists r.
      split; [|done]. by apply lookup_app_l_Some.
    + destruct (Hwin (k - i)%nat s) as (r & Hr & HP).
      { rewrite lookup_take_lt by lia. rewrite lookup_drop.
        by replace (i + (k - i))%nat with k by lia. }
      exists r. replace (i + (k - i))%nat with k in HP by lia.
      split; [|done]. rewrite lookup_app_r by lia.
      by replace (k - length results)%nat with (k - i)%nat by lia.
Qed.


Lemma answered_all {T R} (P : nat → T → R → Prop) (servers : list T)
  (results : list R) (i : nat) :
  answered P servers results i → (length servers ≤ i)%nat →
  answered P servers results (length servers).
Proof.
  intros [Hlen Hres] Hi. split; [lia|].
  intros k s Hk Hs. apply Hres; [lia|done].
Qed.

Lemma slice_lookup {T} (servers : list T) (i size j : nat) (s : T) :
  slice servers i (i + size) !! j = Some s →
  servers !! (i + j)%nat = Some s ∧ (j < size)%nat.
Proof.
  unfold slice. replace (i + size - i)%nat with size by lia.
  intros [Hj Hlt]%lookup_take_Some. by rewrite lookup_drop in Hj.
Qed.

Lemma serverjs_batchLoop_answers {I} (net : ServerJs.Network)
  (servers : list (option (QuerySpec.t I))) (fuel i : nat)
  (results : list (ServerJs.BatchResult.t I)) :
  (∀ k s, servers !! k = Some s → ∃ r, serverjsAnswer net k s r) →
  (∀ i j, (j < ServerJs.BATCH_SIZE)%nat → j ∈ ServerJs.completion net i) →
  (length servers ≤ fuel + i)%nat →
  answered (serverjsAnswer net) servers results i →
  ∃ final, ServerJs.batchLoop net servers fuel i results
           = Some (Resolved final)
           ∧ answered (serverjsAnswer net) servers final (length servers).
Proof.
  intros Hproc Horder. revert i results.
  induction fuel as [|fuel IH]; intros i results Hfuel Hans.
  - exists results. cbn. rewrite bool_decide_eq_false_2 by lia.
    split; [done|]. eapply answered_all; [done|lia].
  - cbn. case_bool_decide as Hi.
    + destruct (window_fulfilled (ServerJs.processElement net)
                  (serverjsAnswer net) i
                  (slice servers i (i + ServerJs.BATCH_SIZE)))
        as (rs & Hrs & Hlen & Hlook).
      { intros j s [Hs _]%slice_lookup.
        destruct (Hproc _ _ Hs) as [r Hr]. exists r. split; [|done].
        by destruct Hr as (server & -> & Hr & _). }
      rewrite Hrs, promiseAll_resolved.
      * apply IH; [unfold ServerJs.BATCH_SIZE; lia|].
        by apply answered_window.
      * intros j Hj. apply Horder. rewrite Hlen in Hj.
        unfold slice in Hj. rewrite length_take in Hj. lia.
    + exists results. split; [done|]. eapply answered_all; [done|lia].
Qed.

Lemma relay_batchLoop_answers {I} (net : Relay.Network)
  (servers : list (option (QuerySpec.t I))) (fuel i : nat)
  (results : list (Relay.BatchResult.t I)) :
  (∀ k s, servers !! k = Some s → ∃ r, relayAnswer net k s r) →
  (∀ i j, (j < Relay.concurrency)%nat → j ∈ Relay.completion net i) →
  (length servers ≤ fuel + i)%nat →
  answered (relayAnswer net) servers results i →
  ∃ final, Relay.batchLoop net servers fuel i results
           = Some (Resolved final)
           ∧ answered (relayAnswer net) servers final (length servers).
Proof.
  intros Hproc Horder. revert i results.
  induction fuel as [|fuel IH]; intros i results Hfuel Hans.
  - exists results. cbn. rewrite bool_decide_eq_false_2 by lia.
    split; [done|]. eapply answered_all; [done|lia].
  - cbn. case_bool_decide as Hi.
    + destruct (window_fulfilled (Relay.processElement net)
                  (relayAnswer net) i
                  (slice servers i (i + Relay.concurrency)))
        as (rs & Hrs & Hlen & Hlook).
      { intros j s [Hs _]%slice_lookup.
        destruct (Hproc _ _ Hs) as [r Hr]. exists r. split; [|done].
        by destruct Hr as (server & -> & Hr & _). }
      rewrite Hrs, promiseAll_resolved.
      * apply IH; [unfold Relay.concurrency; lia|].
        by apply answered_window.
      * intros j Hj. apply Horder. rewrite Hlen in Hj.
        unfold slice in Hj. rewrite length_take in Hj. lia.
    + exists results. split; [done|]. eapply answered_all; [done|lia].
Qed.

Ltac in_list :=
  repeat first [apply list_elem_of_here | apply list_elem_of_further].

(** C6: one failing query aborts the whole batch, in either variant, on an
    input the other variant answers in full.  With a server whose port is
    out of range, [client.send] raises on the spot: the second variant has
    no [try] around it, the promise of the query is rejected, [Promise.all]
    rejects and the handler raises, so no result is sent for either server;
    src/server.js catches the exception and answers both servers, the
    first with the error in its [errors].  With a send that is reported to
    have failed after the deadline, src/server.js closes the socket a
    second time, the exception ends the process and nothing is answered;
    the second variant answers both servers, the first with 'Timeout'. *)
Theorem batch_aborted_by_one_failure :
  (Relay.queryBatch badPortRelay (Some <$> badPortFirst)
   = Some (Rejected badPort)
   ∧ Relay.queryBatchEndpoint badPortRelay
       (ServerJs.Servers (Some <$> badPortFirst))
     = Some (Relay.Unhandled badPort)
   ∧ ∃ r1 r2,
       ServerJs.queryBatch badPortJs (Some <$> badPortFirst)
       = Some (Resolved [r1; r2])
       ∧ ServerJs.BatchResult.id r1 = 1
       ∧ ServerJs.BatchResult.errors r1
         = ServerJs.Errors.mk (Some (ServerJs.message badPort))
             (Some (ServerJs.message badPort))
       ∧ ServerJs.BatchResult.id r2 = 2
       ∧ ServerJs.BatchResult.errors r2 = ServerJs.Errors.mk None None)
  ∧ (uncaught (deliverAll ServerJs.onServerInfo lateSendFailure
                 (ServerJs.getServerInfo 3000 "example.invalid" 28015 None))
     = [NotRunning]
     ∧ ServerJs.queryBatch slowLookupJs (Some <$> slowLookupFirst) = None
     ∧ ServerJs.queryBatchEndpoint slowLookupJs
         (ServerJs.Servers (Some <$> slowLookupFirst))
       = None
     ∧ ∃ r1 r2,
         Relay.queryBatch slowLookupRelay (Some <$> slowLookupFirst)
         = Some (Resolved [r1; r2])
         ∧ Relay.BatchResult.id r1 = 1
         ∧ Relay.BatchResult.errors r1
           = Relay.Errors.mk (Some "Timeout"%string) (Some "Timeout"%string)
         ∧ Relay.BatchResult.id r2 = 2
         ∧ Relay.BatchResult.errors r2 = Relay.Errors.mk None None).
Proof.
  split.
  - split; [reflexivity|]. split; [reflexivity|].
    eexists _, _. split; [vm_compute; reflexivity|].
    repeat split; reflexivity.
  - split; [reflexivity|]. split; [reflexivity|]. split; [reflexivity|].
    eexists _, _. split; [vm_compute; reflexivity|].
    repeat split; reflexivity.
Qed.

(** ** Partial player lists in the second variant *)

Lemma at_app_r (pre rest : Buffer) (i : nat) :
  at_ (pre ++ rest) (length pre + i) = at_ rest i.
Proof.
  unfold at_. rewrite lookup_app_r by lia.
  by replace (length pre + i - length pre)%nat with i by lia.
Qed.

Lemma utf8_ascii (name : list byte) :
  asciiName name → utf8 name = u8 <$> name.
Proof.
  unfold utf8. induction 1 as [|b name Hb _ IH]; [done|].
  cbn. unfold classify.
  destruct (Z.leb_spec (u8 b) 127); [|lia]. by rewrite IH.
Qed.

Lemma scanNul_name (name rest : Buffer) (offset : nat) :
  asciiName name → (rest = [] ∨ ∃ rest', rest = x00 :: rest') →
  scanNul (name ++ rest) offset = (offset + length name)%nat.
Proof.
  intros Hname Hrest. revert offset.
  induction Hname as [|b name Hb _ IH]; intros offset; cbn.
  - destruct Hrest as [->|[rest' ->]]; cbn; lia.
  - destruct (Byte.eqb b x00) eqn:Hz.
    + apply Byte.byte_dec_bl in Hz. subst b. cbn in Hb. lia.
    + rewrite IH. lia.
Qed.

Lemma readString_name (pre name rest : Buffer) :
  asciiName name → (rest = [] ∨ ∃ rest', rest = x00 :: rest') →
  Relay.readString (pre ++ name ++ rest) (length pre) = u8 <$> name.
Proof.
  intros Hname Hrest. unfold Relay.readString, findNul, slice.
  rewrite drop_app_length, (scanNul_name name rest _ Hname Hrest).
  replace (length pre + length name - length pre)%nat with (length name)
    by lia.
  rewrite take_app_length. by apply utf8_ascii.
Qed.

(** Once fewer than eight bytes can follow a name, the loop adds nothing. *)
Lemma playersLoop_exhausted (buffer : Buffer) (left offset : nat)
  (acc : list Relay.PlayerEntry.t) :
  (length buffer < offset + 8)%nat →
  Relay.playersLoop buffer left offset acc = Normal acc.
Proof.
  revert offset. induction left as [|left IH]; intros offset Hend; [done|].
  cbn. destruct (at_ buffer offset); [|done].
  rewrite bool_decide_eq_false_2 by lia. apply IH. lia.
Qed.

Lemma word32_at (buffer pre rest : Buffer) (offset : nat)
  (b0 b1 b2 b3 : byte) :
  buffer = pre ++ b0 :: b1 :: b2 :: b3 :: rest → offset = length pre →
  word32 buffer offset = Some (le32 (b0, b1, b2, b3)).
Proof.
  intros -> ->. unfold word32.
  rewrite <- (Nat.add_0_r (length pre)) at 1.
  by rewrite !at_app_r.
Qed.

(** One complete entry is read and appended, and the loop goes on right
    after it. *)
Lemma playersLoop_complete (pre rest : Buffer) (e : WireEntry)
  (left : nat) (acc : list Relay.PlayerEntry.t) :
  asciiName (wName e) →
  Relay.playersLoop (pre ++ encodeEntry e ++ rest) (S left) (length pre) acc
  = Relay.playersLoop (pre ++ encodeEntry e ++ rest) left
      (length (pre ++ encodeEntry e)) (acc ++ [entryOf e]).
Proof.
  destruct e as [idx name [[[s0 s1] s2] s3] [[[d0 d1] d2] d3]].
  intros Hname. cbn [wName] in Hname. unfold encodeEntry, entryOf.
  cbn [wIndex wName wScore wDuration quad].
  set (buffer := pre ++ _ ++ rest).
  cbn [Relay.playersLoop].
  assert (at_ buffer (length pre) = Some (u8 idx)) as ->.
  { unfold at_, buffer. cbn. by rewrite list_lookup_middle. }
  assert (Relay.readString buffer (S (length pre)) = u8 <$> name) as ->.
  { replace (S (length pre)) with (length (pre ++ [idx]))
      by (rewrite length_app; cbn; lia).
    replace buffer
      with ((pre ++ [idx]) ++ name
            ++ x00 :: s0 :: s1 :: s2 :: s3 :: d0 :: d1 :: d2 :: d3 :: rest).
    - apply readString_name; [done|]. right. eauto.
    - unfold buffer. rewrite <- !app_assoc. cbn. by rewrite <- !app_assoc. }
  rewrite length_fmap.
  set (offset := (S (length pre) + (length name + 1))%nat).
  assert (buffer = (pre ++ idx :: name ++ [x00])
                   ++ s0 :: s1 :: s2 :: s3 :: d0 :: d1 :: d2 :: d3 :: rest)
    as Hscore.
  { unfold buffer. rewrite <- !app_assoc. cbn. by rewrite <- !app_assoc. }
  assert (buffer = (pre ++ idx :: name ++ [x00; s0; s1; s2; s3])
                   ++ d0 :: d1 :: d2 :: d3 :: rest) as Hduration.
  { unfold buffer. rewrite <- !app_assoc. cbn. by rewrite <- !app_assoc. }
  rewrite bool_decide_eq_true_2.
  2:{ rewrite Hscore, !length_app. cbn. rewrite !length_app. cbn.
      unfold offset. lia. }
  unfold readInt32LE, readFloatLE.
  rewrite (word32_at buffer _ _ offset s0 s1 s2 s3 Hscore).
  2:{ rewrite !length_app. cbn. rewrite !length_app. cbn. unfold offset. lia. }
  rewrite (word32_at buffer _ _ (offset + 4) d0 d1 d2 d3 Hduration).
  2:{ rewrite !length_app. cbn. rewrite !length_app. cbn. unfold offset. lia. }
  cbn [fmap option_fmap option_map]. f_equal.
  rewrite !length_app. cbn. rewrite !length_app. cbn. unfold offset. lia.
Qed.

(** What is left of a truncated entry adds nothing. *)
Lemma playersLoop_cut (pre cut : Buffer) (left : nat)
  (acc : list Relay.PlayerEntry.t) :
  truncatedEntry cut →
  Relay.playersLoop (pre ++ cut) left (length pre) acc = Normal acc.
Proof.
  intros Hcut. destruct left as [|left]; [done|].
  destruct Hcut as [->|(idx & name & rest & -> & Hname & Hrest)].
  - cbn. by rewrite at_None by (rewrite app_nil_r; lia).
  - cbn [Relay.playersLoop].
    assert (at_ (pre ++ idx :: name ++ rest) (length pre) = Some (u8 idx))
      as ->.
    { unfold at_. by rewrite list_lookup_middle. }
    assert (Relay.readString (pre ++ idx :: name ++ rest) (S (length pre))
            = u8 <$> name) as ->.
    { replace (S (length pre)) with (length (pre ++ [idx]))
        by (rewrite length_app; cbn; lia).
      replace (pre ++ idx :: name ++ rest)
        with ((pre ++ [idx]) ++ name ++ rest) by (by rewrite <- app_assoc).
      apply readString_name; [done|].
      destruct Hrest as [->|(partial & -> & _)]; eauto. }
    rewrite length_fmap.
    assert (length (pre ++ idx :: name ++ rest)
            < S (length pre) + (length name + 1) + 8)%nat as Hshort.
    { rewrite length_app. cbn. rewrite length_app.
      destruct Hrest as [->|(partial & -> & Hpartial)]; cbn; lia. }
    rewrite bool_decide_eq_false_2 by lia.
    by apply playersLoop_exhausted.
Qed.

Lemma playersLoop_entries (entries : list WireEntry) (pre cut : Buffer)
  (left : nat) (acc : list Relay.PlayerEntry.t) :
  Forall (λ e, asciiName (wName e)) entries → truncatedEntry cut →
  (length entries ≤ left)%nat →
  Relay.playersLoop (pre ++ concat (encodeEntry <$> entries) ++ cut) left
    (length pre) acc
  = Normal (acc ++ (entryOf <$> entries)).
Proof.
  intros Hnames Hcut. revert pre left acc.
  induction Hnames as [|e entries He _ IH]; intros pre left acc Hleft.
  - cbn. rewrite app_nil_r. by apply playersLoop_cut.
  - destruct left as [|left]; [cbn in Hleft; lia|].
    rewrite fmap_cons. cbn [concat]. rewrite <- (app_assoc (encodeEntry e)).
    rewrite playersLoop_complete by done.
    rewrite (app_assoc pre), IH by (cbn in Hleft; lia).
    by rewrite <- app_assoc.
Qed.

(** In the second variant, a player response whose count byte announces
    more entries than the buffer holds complete, and whose names are ASCII,
    decodes to exactly the complete entries, in their order, and to no
    error. *)
Lemma parseA2SPlayers_partial_list (header : Buffer) (count : byte)
  (entries : list WireEntry) (cut : Buffer) :
  length header = 5%nat →
  Forall (λ e, asciiName (wName e)) entries → truncatedEntry cut →
  (Z.of_nat (length entries) < u8 count) →
  Relay.parseA2SPlayers
    (header ++ count :: concat (encodeEntry <$> entries) ++ cut)
  = Normal (entryOf <$> entries).
Proof.
  intros Hheader Hnames Hcut Hcount. unfold Relay.parseA2SPlayers.
  rewrite bool_decide_eq_false_2 by (rewrite length_app; cbn; lia).
  assert (at_ (header ++ count :: concat (encodeEntry <$> entries) ++ cut) 5
          = Some (u8 count)) as ->.
  { rewrite <- Hheader. unfold at_. by rewrite list_lookup_middle. }
  cbn [ServerJs.iterations].
  replace (header ++ count :: concat (encodeEntry <$> entries) ++ cut)
    with ((header ++ [count]) ++ concat (encodeEntry <$> entries) ++ cut)
    by (by rewrite <- app_assoc).
  replace 6%nat with (length (header ++ [count]))
    by (rewrite length_app, Hheader; done).
  rewrite playersLoop_entries by (done || lia). done.
Qed.

Lemma parseA2SPlayers_partial_list_example :
  Relay.parseA2SPlayers playersScenario
  = Normal [Relay.PlayerEntry.mk 0 (lit "a") 1 0x3F800000;
            Relay.PlayerEntry.mk 1 (lit "b") 2 0x40000000].
Proof.
  apply (parseA2SPlayers_partial_list
           (fromArray [0xFF; 0xFF; 0xFF; 0xFF; 0x44]) x03
           [mkWire x00 [x61] (x01, x00, x00, x00) (x00, x00, x80, x3f);
            mkWire x01 [x62] (x02, x00, x00, x00) (x00, x00, x00, x40)]
           (fromArray [2; 0x63; 0; 1; 2; 3])).
  - reflexivity.
  - repeat constructor.
  - right. exists x02, [x63], [x00; x01; x02; x03].
    split; [reflexivity|]. split; [repeat constructor|].
    right. exists [x01; x02; x03]. split; [reflexivity|cbn; lia].
  - reflexivity.
Qed.

(** * Further properties of the decoders *)

Lemma u8_range (b : byte) : 0 ≤ u8 b ≤ 255.
Proof. unfold u8. pose proof (Byte.to_N_bounded b). lia. Qed.

Lemma at_range (data : Buffer) (i : nat) (v : Z) :
  at_ data i = Some v → 0 ≤ v ≤ 255.
Proof.
  unfold at_. intros (b & _ & ->)%fmap_Some. apply u8_range.
Qed.

Lemma orZero_range (x : option Z) (hi : Z) :
  0 ≤ hi → (∀ v, x = Some v → 0 ≤ v ≤ hi) → 0 ≤ orZero x ≤ hi.
Proof.
  intros Hhi Hx. destruct x as [v|]; cbn; [|lia].
  specialize (Hx v eq_refl). destruct (v =? 0); lia.
Qed.

Lemma orString_nonempty (s fallback : jsstring) :
  fallback ≠ [] → orString s fallback ≠ [].
Proof. by destruct s. Qed.

Lemma readUInt16LE_range (data : Buffer) (offset : nat) (v : Z) :
  readUInt16LE data offset = Some v → 0 ≤ v ≤ 65535.
Proof.
  unfold readUInt16LE.
  destruct (at_ data offset) as [b0|] eqn:H0; [|done].
  destruct (at_ data (offset + 1)) as [b1|] eqn:H1; [|done].
  intros [= <-]. apply at_range in H0, H1. lia.
Qed.

Lemma wellFormedInfo_mk name map game players maxPlayers bots appId :
  name ≠ [] → map ≠ [] → game ≠ [] →
  0 ≤ players ≤ 255 → 0 ≤ maxPlayers ≤ 255 → 0 ≤ bots ≤ 255 →
  0 ≤ appId ≤ 65535 →
  wellFormedInfo
    (ServerJs.ServerInfo.mk name map game players maxPlayers bots appId).
Proof. by unfold wellFormedInfo. Qed.

Lemma parseBody_fields (data : Buffer) (info : ServerJs.ServerInfo.t) :
  fst (ServerJs.parseBody data 6%nat) = Normal info → wellFormedInfo info.
Proof.
  unfold ServerJs.parseBody, bind, ServerJs.readString, get, throwIf,
    ServerJs.readByte, ret.
  cbn. case_bool_decide; [done|]. cbn.
  unfold ServerJs.readShort.
  destruct (readUInt16LE data _) as [appId|] eqn:HappId; [|done].
  cbn. intros [= <-].
  apply wellFormedInfo_mk; try (by apply orString_nonempty);
    try (apply orZero_range; [lia|]; apply at_range).
  apply (orZero_range (Some appId)); [lia|].
  intros v [= <-]. by eapply readUInt16LE_range.
Qed.

(** X1: whatever the buffer, a ServerInfo returned by [parseServerInfo] has
    non-empty name, map and game, its players, maxPlayers and bots are
    bytes, and its appId is a 16-bit number. *)
Theorem parseServerInfo_fields (data : Buffer)
  (info : ServerJs.ServerInfo.t) :
  ServerJs.parseServerInfo data = Normal info → wellFormedInfo info.
Proof.
  unfold ServerJs.parseServerInfo, tryCatch, ret.
  destruct (_ || _); [done|].
  destruct (ServerJs.parseBody data 6%nat) as [[body|err] offset] eqn:Hbody.
  - cbn. intros [= <-]. apply (parseBody_fields data). by rewrite Hbody.
  - cbn. intros [= <-]. apply wellFormedInfo_mk; (done || lia).
Qed.

Lemma parseServerInfo_fields_witness :
  wellFormedInfo
    (ServerJs.ServerInfo.mk (lit "y Server") (lit "de_dust2")
       (lit "Counter-Strike") 16 32 0 240).
Proof. apply (parseServerInfo_fields infoScenario). reflexivity. Defined.

(** ** The player decoders never fail on a read *)

Lemma word32_range (data : Buffer) (offset : nat) (w : Z) :
  word32 data offset = Some w → 0 ≤ w < 2 ^ 32.
Proof.
  unfold word32.
  destruct (at_ data offset) as [b0|] eqn:H0; [|done].
  destruct (at_ data (offset + 1)) as [b1|] eqn:H1; [|done].
  destruct (at_ data (offset + 2)) as [b2|] eqn:H2; [|done].
  destruct (at_ data (offset + 3)) as [b3|] eqn:H3; [|done].
  intros [= <-]. apply at_range in H0, H1, H2, H3. lia.
Qed.

Lemma word32_is_Some (data : Buffer) (offset : nat) :
  (offset + 4 ≤ length data)%nat → ∃ w, word32 data offset = Some w.
Proof.
  intros Hroom. unfold word32.
  destruct (at_is_Some data offset ltac:(lia)) as [b0 ->].
  destruct (at_is_Some data (offset + 1) ltac:(lia)) as [b1 ->].
  destruct (at_is_Some data (offset + 2) ltac:(lia)) as [b2 ->].
  destruct (at_is_Some data (offset + 3) ltac:(lia)) as [b3 ->].
  eauto.
Qed.

Lemma toInt32_range (w : Z) :
  0 ≤ w < 2 ^ 32 → - 2 ^ 31 ≤ toInt32 w < 2 ^ 31.
Proof. unfold toInt32. destruct (Z.ltb_spec w (2 ^ 31)); lia. Qed.

Lemma f32OrZero_range (d : Z) : 0 ≤ d < 2 ^ 32 → 0 ≤ f32OrZero d < 2 ^ 32.
Proof. unfold f32OrZero. destruct (f32Falsy d); lia. Qed.

Lemma playersLoop_total (buffer : Buffer) (left offset : nat)
  (acc : list Relay.PlayerEntry.t) :
  Forall wellFormedPlayerRelay acc →
  ∃ ps, Relay.playersLoop buffer left offset acc = Normal ps
        ∧ (length ps ≤ length acc + left)%nat
        ∧ Forall wellFormedPlayerRelay ps.
Proof.
  revert offset acc. induction left as [|left IH]; intros offset acc Hacc.
  { exists acc. split; [done|]. split; [lia|done]. }
  cbn. destruct (at_ buffer offset) as [index|] eqn:Hindex.
  2:{ exists acc. split; [done|]. split; [lia|done]. }
  case_bool_decide as Hroom.
  - match goal with
    | |- context [match readInt32LE buffer ?o with _ => _ end] =>
        destruct (word32_is_Some buffer o ltac:(lia)) as [score Hscore]
    end.
    match goal with
    | |- context [readFloatLE buffer ?o] =>
        destruct (word32_is_Some buffer o ltac:(lia))
          as [duration Hduration]
    end.
    unfold readInt32LE, readFloatLE. rewrite Hscore, Hduration. cbn.
    edestruct IH as (ps & -> & Hlen & Hps).
    { apply Forall_app. split; [exact Hacc|]. apply Forall_singleton.
      split; [by eapply at_range|]. cbn.
      split; [apply toInt32_range|]; by eapply word32_range. }
    exists ps. split; [done|]. split; [|done].
    rewrite length_app in Hlen. cbn in Hlen. lia.
  - edestruct IH as (ps & -> & Hlen & Hps); [exact Hacc|].
    exists ps. split; [done|]. split; [lia|done].
Qed.

Lemma parseA2SPlayers_returns (buffer : Buffer) :
  ∃ ps, Relay.parseA2SPlayers buffer = Normal ps
        ∧ (length ps ≤ 255)%nat
        ∧ (∀ count, at_ buffer 5 = Some count →
             Z.of_nat (length ps) ≤ count)
        ∧ Forall wellFormedPlayerRelay ps.
Proof.
  unfold Relay.parseA2SPlayers. case_bool_decide as Hshort.
  { exists []. split; [done|]. split; [cbn; lia|]. split; [|done].
    intros count Hcount%at_range. cbn. lia. }
  destruct (at_is_Some buffer 5 ltac:(lia)) as [count Hcount].
  rewrite Hcount. cbn [ServerJs.iterations].
  destruct (playersLoop_total buffer (Z.to_nat count) 6 [])
    as (ps & -> & Hlen & Hps); [done|].
  apply at_range in Hcount. exists ps. split; [done|]. cbn in Hlen.
  split; [lia|]. split; [|done]. intros count' [= <-]. lia.
Qed.

(** X2: [parseA2SPlayers] raises on no buffer: the reads of the score and of
    the duration are always in range.  It returns at most as many entries
    as the count byte at offset 5 announces, each with an index in 0..255
    and a score in the signed 32-bit range. *)
Theorem parseA2SPlayers_total (buffer : Buffer) :
  ∃ ps, Relay.parseA2SPlayers buffer = Normal ps
        ∧ (length ps ≤ 255)%nat
        ∧ (∀ count, at_ buffer 5 = Some count →
             Z.of_nat (length ps) ≤ count)
        ∧ Forall wellFormedPlayerRelay ps.
Proof. apply parseA2SPlayers_returns. Qed.

Lemma orZero_range_signed (v : Z) :
  - 2 ^ 31 ≤ v < 2 ^ 31 → - 2 ^ 31 ≤ orZero (Some v) < 2 ^ 31.
Proof. cbn. destruct (v =? 0); lia. Qed.

Lemma playerLoop_bounded (data : Buffer) (left offset : nat)
  (acc : list ServerJs.PlayerEntry.t) :
  Forall wellFormedPlayerJs acc →
  (length (ServerJs.playerLoop data left offset acc) ≤ length acc + left)%nat
  ∧ Forall wellFormedPlayerJs (ServerJs.playerLoop data left offset acc).
Proof.
  revert offset acc. induction left as [|left IH]; intros offset acc Hacc.
  { cbn. split; [lia|done]. }
  cbn. destruct (at_ data offset) as [index|] eqn:Hindex;
    [|split; [lia|done]].
  case_bool_decide; [split; [lia|done]|].
  destruct (readInt32LE data _) as [score|] eqn:Hscore; [|split; [lia|done]].
  destruct (readFloatLE data _) as [duration|] eqn:Hduration;
    [|split; [lia|done]].
  destruct (utf8 _) as [|u name].
  - edestruct IH as [Hlen Hps]; [exact Hacc|]. split; [|exact Hps]. lia.
  - edestruct IH as [Hlen Hps]; [|split; [|exact Hps]].
    { apply Forall_app. split; [exact Hacc|]. apply Forall_singleton.
      split; [by eapply at_range|]. cbn.
      unfold readInt32LE in Hscore.
      apply fmap_Some in Hscore as (w & Hw & ->).
      split.
      - apply (orZero_range_signed (toInt32 w)). apply toInt32_range.
        by eapply word32_range.
      - apply f32OrZero_range. by eapply word32_range. }
    rewrite length_app in Hlen. change (length [_]) with 1%nat in Hlen. lia.
Qed.

(** X3: a player list returned by [parsePlayerInfo] of src/server.js has at
    most as many entries as the byte at offset 6 announces, none when the
    buffer ends before that byte, and every entry has an index in 0..255
    and a score in the signed 32-bit range. *)
Theorem parsePlayerInfo_bounded (data : Buffer)
  (ps : list ServerJs.PlayerEntry.t) :
  ServerJs.parsePlayerInfo data = Normal ps →
  (length ps ≤ 255)%nat
  ∧ (at_ data 6 = None → ps = [])
  ∧ (∀ count, at_ data 6 = Some count → Z.of_nat (length ps) ≤ count)
  ∧ Forall wellFormedPlayerJs ps.
Proof.
  unfold ServerJs.parsePlayerInfo. destruct (_ || _); [done|].
  intros [= <-].
  destruct (playerLoop_bounded data (ServerJs.iterations (at_ data 6)) 7 [])
    as [Hlen Hps]; [done|].
  revert Hlen Hps. generalize (ServerJs.playerLoop data
                                (ServerJs.iterations (at_ data 6)) 7 []).
  intros ps. destruct (at_ data 6) as [count|] eqn:Hcount; cbn;
    intros Hlen Hps.
  - apply at_range in Hcount.
    split; [lia|]. split; [done|]. split; [|done].
    intros count' [= <-]. lia.
  - assert (ps = []) as -> by (destruct ps; [done|cbn in Hlen; lia]).
    split; [cbn; lia|]. split; [done|]. split; [done|done].
Qed.

Lemma parsePlayerInfo_bounded_witness :
  (length [ServerJs.PlayerEntry.mk 7 [] 9 0x3F800000] ≤ 255)%nat
  ∧ (at_ blankNamePlayer 6 = None
     → [ServerJs.PlayerEntry.mk 7 [] 9 0x3F800000] = [])
  ∧ (∀ count, at_ blankNamePlayer 6 = Some count →
       Z.of_nat (length [ServerJs.PlayerEntry.mk 7 [] 9 0x3F800000]) ≤ count)
  ∧ Forall wellFormedPlayerJs [ServerJs.PlayerEntry.mk 7 [] 9 0x3F800000].
Proof. apply (parsePlayerInfo_bounded blankNamePlayer). reflexivity. Defined.

(** ** Decoding what a server sends *)

Lemma bind_Normal {S A B} (m : Eff S A) (f : A → Eff S B) (s s' : S)
  (a : A) :
  m s = (Normal a, s') → bind m f s = f a s'.
Proof. unfold bind. by intros ->. Qed.

Lemma scanNul_nulFree (name rest : Buffer) (offset : nat) :
  nulFree name → (rest = [] ∨ ∃ rest', rest = x00 :: rest') →
  scanNul (name ++ rest) offset = (offset + length name)%nat.
Proof.
  intros Hname Hrest. revert offset.
  induction Hname as [|b name Hb _ IH]; intros offset; cbn.
  - destruct Hrest as [->|[rest' ->]]; cbn; lia.
  - destruct (Byte.eqb b x00) eqn:Hz.
    + by apply Byte.byte_dec_bl in Hz.
    + rewrite IH. lia.
Qed.

(** Reading a string that starts at [offset]: the bytes up to the
    terminator, decoded, and the offset past the terminator. *)
Lemma findNul_name (buffer pre name rest : Buffer) (offset : nat) :
  buffer = pre ++ name ++ rest → offset = length pre → nulFree name →
  (rest = [] ∨ ∃ rest', rest = x00 :: rest') →
  findNul buffer offset = (offset + length name)%nat
  ∧ slice buffer offset (offset + length name) = name.
Proof.
  intros -> -> Hname Hrest. unfold findNul, slice.
  rewrite drop_app_length, (scanNul_nulFree name rest _ Hname Hrest).
  split; [done|].
  replace (length pre + length name - length pre)%nat with (length name)
    by lia.
  by rewrite take_app_length.
Qed.

Lemma js_readString_name (buffer pre name rest : Buffer) (offset : nat) :
  buffer = pre ++ name ++ x00 :: rest → offset = length pre →
  nulFree name →
  ServerJs.readString buffer offset
  = (Normal (utf8 name), length (pre ++ name ++ [x00])).
Proof.
  intros Hbuffer Hoffset Hname. unfold ServerJs.readString.
  destruct (findNul_name buffer pre name (x00 :: rest) offset)
    as [-> ->]; [done..|eauto|].
  f_equal. rewrite !length_app. cbn. lia.
Qed.

Lemma orZero_Some (v : Z) : orZero (Some v) = v.
Proof. cbn. by destruct (Z.eqb_spec v 0). Qed.

Ltac list_norm :=
  repeat (rewrite <- app_assoc || rewrite <- app_comm_cons).

(** X4: [parseServerInfo] of src/server.js on a response laid out as the
    protocol has it.  Whatever the first four bytes and the protocol byte at
    offset 5, and whatever follows the environment byte, the result carries
    the decoded name, map and game (each replaced by its 'Unknown ...'
    default when empty), the little-endian appId and the players,
    maxPlayers and bots bytes; folder, server type and environment are read
    and dropped. *)
Theorem parseServerInfo_roundtrip (header : Buffer) (protocol : byte)
  (name map folder game : list byte)
  (appLo appHi players maxPlayers bots serverType environment : byte)
  (extra : Buffer) :
  length header = 4%nat →
  nulFree name → nulFree map → nulFree folder → nulFree game →
  ServerJs.parseServerInfo
    (header ++ x49 :: protocol :: infoStrings name map folder game
     ++ appLo :: appHi :: players :: maxPlayers :: bots :: serverType
        :: environment :: extra)
  = Normal
      (ServerJs.ServerInfo.mk
         (orString (utf8 name) (lit "Unknown Server"))
         (orString (utf8 map) (lit "Unknown Map"))
         (orString (utf8 game) (lit "Unknown Game"))
         (u8 players) (u8 maxPlayers) (u8 bots)
         (u8 appLo + u8 appHi * 2 ^ 8)).
Proof.
  intros Hheader Hname Hmap Hfolder Hgame.
  set (numbers := appLo :: appHi :: players :: maxPlayers :: bots
                  :: serverType :: environment :: extra).
  set (buffer := header ++ _).
  set (p0 := header ++ [x49; protocol]).
  set (p1 := p0 ++ name ++ [x00]).
  set (p2 := p1 ++ map ++ [x00]).
  set (p3 := p2 ++ folder ++ [x00]).
  set (p4 := p3 ++ game ++ [x00]).
  assert (buffer = p0 ++ name
                   ++ x00 :: map ++ x00 :: folder ++ x00 :: game
                   ++ x00 :: numbers) as E0.
  { unfold buffer, p0, infoStrings. by list_norm. }
  assert (buffer = p1 ++ map ++ x00 :: folder ++ x00 :: game
                   ++ x00 :: numbers) as E1.
  { rewrite E0. unfold p1. by list_norm. }
  assert (buffer = p2 ++ folder ++ x00 :: game ++ x00 :: numbers) as E2.
  { rewrite E1. unfold p2. by list_norm. }
  assert (buffer = p3 ++ game ++ x00 :: numbers) as E3.
  { rewrite E2. unfold p3. by list_norm. }
  assert (buffer = p4 ++ numbers) as E4.
  { rewrite E3. unfold p4. by list_norm. }
  assert (length p0 = 6%nat) as Hp0.
  { unfold p0. rewrite length_app, Hheader. done. }
  assert (length buffer = length p4 + (7 + length extra))%nat as Hlen.
  { rewrite E4, length_app. done. }
  assert (6 ≤ length p4)%nat as Hp4.
  { unfold p4, p3, p2, p1. rewrite !length_app. lia. }
  unfold ServerJs.parseServerInfo.
  rewrite bool_decide_eq_false_2 by lia.
  rewrite bool_decide_eq_false_2.
  2:{ intros Htag. apply Htag. unfold at_, buffer.
      by rewrite list_lookup_middle. }
  cbn [orb]. unfold tryCatch, ServerJs.parseBody.
  rewrite (bind_Normal _ _ _ _ _
             (js_readString_name buffer p0 name _ 6 E0 (eq_sym Hp0) Hname)).
  fold p1.
  rewrite (bind_Normal _ _ _ _ _
             (js_readString_name buffer p1 map _ _ E1 eq_refl Hmap)).
  fold p2.
  rewrite (bind_Normal _ _ _ _ _
             (js_readString_name buffer p2 folder _ _ E2 eq_refl Hfolder)).
  fold p3.
  rewrite (bind_Normal _ _ _ _ _
             (js_readString_name buffer p3 game _ _ E3 eq_refl Hgame)).
  fold p4.
  unfold bind, get, throwIf, ServerJs.readShort, ServerJs.readByte,
    readUInt16LE, ret.
  rewrite bool_decide_eq_false_2 by lia.
  rewrite E4.
  rewrite <- (Nat.add_0_r (length p4)) at 1.
  rewrite !at_app_r. cbn [numbers at_ lookup list_lookup fmap option_fmap
                            option_map].
  replace (S (S (length p4 + 2)))%nat with (length p4 + 4)%nat by lia.
  replace (S (length p4 + 2))%nat with (length p4 + 3)%nat by lia.
  rewrite !at_app_r.
  change (at_ numbers 2) with (Some (u8 players)).
  change (at_ numbers 3) with (Some (u8 maxPlayers)).
  change (at_ numbers 4) with (Some (u8 bots)).
  by rewrite !orZero_Some.
Qed.

Ltac nul_free :=
  repeat first [apply Forall_nil_2 | apply Forall_cons_2; [discriminate|]].

Lemma parseServerInfo_roundtrip_witness :
  ServerJs.parseServerInfo
    (fromArray [0xFF; 0xFF; 0xFF; 0xFF] ++ x49 :: x11
     :: infoStrings (fromAscii "My Server") (fromAscii "de_dust2")
          (fromAscii "csgo") (fromAscii "Counter-Strike")
     ++ xf0 :: x00 :: x10 :: x20 :: x00 :: x64 :: x6c :: [])
  = Normal
      (ServerJs.ServerInfo.mk
         (orString (utf8 (fromAscii "My Server")) (lit "Unknown Server"))
         (orString (utf8 (fromAscii "de_dust2")) (lit "Unknown Map"))
         (orString (utf8 (fromAscii "Counter-Strike")) (lit "Unknown Game"))
         (u8 x10) (u8 x20) (u8 x00) (u8 xf0 + u8 x00 * 2 ^ 8)).
Proof.
  apply (parseServerInfo_roundtrip (fromArray [0xFF; 0xFF; 0xFF; 0xFF]));
    [reflexivity|unfold nulFree; cbn; nul_free..].
Defined.

Lemma relay_readString_name (buffer pre name rest : Buffer) (offset : nat) :
  buffer = pre ++ name ++ x00 :: rest → offset = length pre →
  asciiName name →
  Relay.readString buffer offset = u8 <$> name.
Proof. intros -> -> Hname. apply readString_name; eauto. Qed.

(** X5: [parseA2SInfo] of the second variant on a response whose four
    strings, all ASCII, start right after the five header bytes and are
    followed by at least eight bytes.  Whatever the header bytes, the result
    carries the four strings, players and maxPlayers from the third and
    fourth byte after the strings, protocol from the second, and server type
    and environment as the characters of the fifth and sixth. *)
Theorem parseA2SInfo_roundtrip (header : Buffer)
  (name map folder game : list byte) (t0 t1 t2 t3 t4 t5 t6 t7 : byte)
  (extra : Buffer) :
  length header = 5%nat →
  asciiName name → asciiName map → asciiName folder → asciiName game →
  Relay.parseA2SInfo
    (header ++ infoStrings name map folder game
     ++ t0 :: t1 :: t2 :: t3 :: t4 :: t5 :: t6 :: t7 :: extra)
  = Normal
      (Relay.ServerInfo.mk (u8 <$> name) (u8 <$> map) (u8 <$> folder)
         (u8 <$> game) (Some (u8 t2)) (Some (u8 t3)) (Some (u8 t1))
         (Some [u8 t4]) (Some [u8 t5])).
Proof.
  intros Hheader Hname Hmap Hfolder Hgame.
  set (numbers := t0 :: t1 :: t2 :: t3 :: t4 :: t5 :: t6 :: t7 :: extra).
  set (buffer := header ++ _).
  set (p1 := header ++ name ++ [x00]).
  set (p2 := p1 ++ map ++ [x00]).
  set (p3 := p2 ++ folder ++ [x00]).
  set (p4 := p3 ++ game ++ [x00]).
  assert (buffer = header ++ name
                   ++ x00 :: map ++ x00 :: folder ++ x00 :: game
                   ++ x00 :: numbers) as E0.
  { unfold buffer, infoStrings. by list_norm. }
  assert (buffer = p1 ++ map ++ x00 :: folder ++ x00 :: game
                   ++ x00 :: numbers) as E1.
  { rewrite E0. unfold p1. by list_norm. }
  assert (buffer = p2 ++ folder ++ x00 :: game ++ x00 :: numbers) as E2.
  { rewrite E1. unfold p2. by list_norm. }
  assert (buffer = p3 ++ game ++ x00 :: numbers) as E3.
  { rewrite E2. unfold p3. by list_norm. }
  assert (buffer = p4 ++ numbers) as E4.
  { rewrite E3. unfold p4. by list_norm. }
  unfold Relay.parseA2SInfo. cbv zeta.
  rewrite (relay_readString_name buffer header name _ 5 E0
             (eq_sym Hheader) Hname).
  rewrite length_fmap.
  assert (5 + (length name + 1) = length p1)%nat as ->.
  { unfold p1. rewrite !length_app. cbn. lia. }
  rewrite (relay_readString_name buffer p1 map _ _ E1 eq_refl Hmap).
  rewrite length_fmap.
  assert (length p1 + (length map + 1) = length p2)%nat as ->.
  { unfold p2. rewrite !length_app. cbn. lia. }
  rewrite (relay_readString_name buffer p2 folder _ _ E2 eq_refl Hfolder).
  rewrite length_fmap.
  assert (length p2 + (length folder + 1) = length p3)%nat as ->.
  { unfold p3. rewrite !length_app. cbn. lia. }
  rewrite (relay_readString_name buffer p3 game _ _ E3 eq_refl Hgame).
  rewrite length_fmap.
  assert (length p3 + (length game + 1) = length p4)%nat as ->.
  { unfold p4. rewrite !length_app. cbn. lia. }
  rewrite bool_decide_eq_true_2.
  2:{ rewrite E4, length_app. cbn. lia. }
  rewrite E4, !at_app_r. done.
Qed.

Lemma parseA2SInfo_roundtrip_witness :
  Relay.parseA2SInfo
    (fromArray [0xFF; 0xFF; 0xFF; 0xFF; 0x49]
     ++ infoStrings (fromAscii "My Server") (fromAscii "de_dust2")
          (fromAscii "csgo") (fromAscii "Counter-Strike")
     ++ xf0 :: x00 :: x10 :: x20 :: x00 :: x64 :: x6c :: x00 :: [])
  = Normal
      (Relay.ServerInfo.mk (lit "My Server") (lit "de_dust2") (lit "csgo")
         (lit "Counter-Strike") (Some 16) (Some 32) (Some 0)
         (Some [0]) (Some [100])).
Proof.
  apply (parseA2SInfo_roundtrip
           (fromArray [0xFF; 0xFF; 0xFF; 0xFF; 0x49])
           (fromAscii "My Server") (fromAscii "de_dust2")
           (fromAscii "csgo") (fromAscii "Counter-Strike"));
    [reflexivity|unfold asciiName; cbn..].
  all: repeat first [apply Forall_nil_2
                    | apply Forall_cons_2; [vm_compute; split; reflexivity|]].
Defined.

(** ** Player lists as sent *)

Lemma playersLoop_full (entries : list WireEntry) (pre extra : Buffer)
  (acc : list Relay.PlayerEntry.t) :
  Forall (λ e, asciiName (wName e)) entries →
  Relay.playersLoop (pre ++ concat (encodeEntry <$> entries) ++ extra)
    (length entries) (length pre) acc
  = Normal (acc ++ (entryOf <$> entries)).
Proof.
  intros Hnames. revert pre acc.
  induction Hnames as [|e entries He _ IH]; intros pre acc.
  - cbn. by rewrite app_nil_r.
  - rewrite fmap_cons. cbn [concat length].
    rewrite <- (app_assoc (encodeEntry e)).
    rewrite playersLoop_complete by done.
    rewrite (app_assoc pre), IH. by rewrite <- app_assoc.
Qed.

(** X6: [parseA2SPlayers] of the second variant on a response whose names
    are ASCII: when the count byte equals the number of entries present,
    whatever follows them is ignored, and when it announces more, the rest
    being a truncated entry or nothing, the result is in both cases exactly
    the entries present, in their order. *)
Theorem parseA2SPlayers_roundtrip (header : Buffer) (count : byte)
  (entries : list WireEntry) (rest : Buffer) :
  length header = 5%nat →
  Forall (λ e, asciiName (wName e)) entries →
  u8 count = Z.of_nat (length entries)
  ∨ (Z.of_nat (length entries) < u8 count ∧ truncatedEntry rest) →
  Relay.parseA2SPlayers
    (header ++ count :: concat (encodeEntry <$> entries) ++ rest)
  = Normal (entryOf <$> entries).
Proof.
  intros Hheader Hnames Hcount. unfold Relay.parseA2SPlayers.
  rewrite bool_decide_eq_false_2 by (rewrite length_app; cbn; lia).
  assert (at_ (header ++ count :: concat (encodeEntry <$> entries) ++ rest) 5
          = Some (u8 count)) as ->.
  { rewrite <- Hheader. unfold at_. by rewrite list_lookup_middle. }
  cbn [ServerJs.iterations].
  replace (header ++ count :: concat (encodeEntry <$> entries) ++ rest)
    with ((header ++ [count]) ++ concat (encodeEntry <$> entries) ++ rest)
    by (by rewrite <- app_assoc).
  replace 6%nat with (length (header ++ [count]))
    by (rewrite length_app, Hheader; done).
  destruct Hcount as [->|[Hmore Hcut]].
  - rewrite Nat2Z.id. by rewrite playersLoop_full.
  - by rewrite playersLoop_entries by (done || lia).
Qed.

Lemma parseA2SPlayers_roundtrip_witness :
  Relay.parseA2SPlayers
    (fromArray [0xFF; 0xFF; 0xFF; 0xFF; 0x44] ++ x01
     :: concat (encodeEntry <$>
                [mkWire x00 [x61] (x01, x00, x00, x00) (x00, x00, x80, x3f)])
     ++ [x09; x09])
  = Normal (entryOf <$>
            [mkWire x00 [x61] (x01, x00, x00, x00) (x00, x00, x80, x3f)]).
Proof.
  apply (parseA2SPlayers_roundtrip
           (fromArray [0xFF; 0xFF; 0xFF; 0xFF; 0x44]) x01).
  - reflexivity.
  - repeat constructor.
  - left. reflexivity.
Defined.

(** One complete entry, as [parsePlayerInfo] of src/server.js delimits
    it. *)
Lemma completeEntries_complete (pre rest : Buffer) (e : WireEntry)
  (left : nat) :
  nulFree (wName e) →
  completeEntries (pre ++ encodeEntry e ++ rest) (S left) (length pre)
  = entryJs e
    :: completeEntries (pre ++ encodeEntry e ++ rest) left
         (length (pre ++ encodeEntry e)).
Proof.
  destruct e as [idx name [[[s0 s1] s2] s3] [[[d0 d1] d2] d3]].
  intros Hname. cbn [wName] in Hname. unfold encodeEntry, entryJs.
  cbn [wIndex wName wScore wDuration quad].
  set (buffer := pre ++ _ ++ rest).
  cbn [completeEntries].
  assert (at_ buffer (length pre) = Some (u8 idx)) as ->.
  { unfold at_, buffer. cbn. by rewrite list_lookup_middle. }
  destruct (findNul_name buffer (pre ++ [idx]) name
              (x00 :: s0 :: s1 :: s2 :: s3 :: d0 :: d1 :: d2 :: d3 :: rest)
              (S (length pre))) as [Hend Hslice].
  { unfold buffer. by list_norm. }
  { rewrite length_app. cbn. lia. }
  { done. }
  { eauto. }
  rewrite Hend, Hslice.
  set (offset := S (S (length pre) + length name)).
  assert (buffer = (pre ++ idx :: name ++ [x00])
                   ++ s0 :: s1 :: s2 :: s3 :: d0 :: d1 :: d2 :: d3 :: rest)
    as Hscore.
  { unfold buffer. by list_norm. }
  assert (buffer = (pre ++ idx :: name ++ [x00; s0; s1; s2; s3])
                   ++ d0 :: d1 :: d2 :: d3 :: rest) as Hduration.
  { unfold buffer. by list_norm. }
  rewrite bool_decide_eq_false_2.
  2:{ rewrite Hscore, !length_app. cbn. rewrite !length_app. cbn.
      unfold offset. lia. }
  unfold readInt32LE, readFloatLE.
  rewrite (word32_at buffer _ _ offset s0 s1 s2 s3 Hscore).
  2:{ rewrite !length_app. cbn. rewrite !length_app. cbn. unfold offset. lia. }
  rewrite (word32_at buffer _ _ (offset + 4) d0 d1 d2 d3 Hduration).
  2:{ rewrite !length_app. cbn. rewrite !length_app. cbn. unfold offset. lia. }
  cbn [fmap option_fmap option_map]. f_equal. f_equal.
  rewrite !length_app. cbn. rewrite !length_app. cbn. unfold offset. lia.
Qed.

Lemma completeEntries_cut (pre cut : Buffer) (left : nat) :
  truncatedEntryJs cut →
  completeEntries (pre ++ cut) left (length pre) = [].
Proof.
  intros Hcut. destruct left as [|left]; [done|].
  destruct Hcut as [->|(idx & name & rest & -> & Hname & Hrest)].
  - cbn. by rewrite at_None by (rewrite app_nil_r; lia).
  - cbn [completeEntries].
    assert (at_ (pre ++ idx :: name ++ rest) (length pre) = Some (u8 idx))
      as ->.
    { unfold at_. by rewrite list_lookup_middle. }
    destruct (findNul_name (pre ++ idx :: name ++ rest) (pre ++ [idx]) name
                rest (S (length pre))) as [Hend Hslice].
    { by list_norm. }
    { rewrite length_app. cbn. lia. }
    { done. }
    { destruct Hrest as [->|(partial & -> & _)]; eauto. }
    rewrite Hend. rewrite bool_decide_eq_true_2; [done|].
    rewrite length_app. cbn. rewrite length_app.
    destruct Hrest as [->|(partial & -> & Hpartial)]; cbn; lia.
Qed.

Lemma completeEntries_entries (entries : list WireEntry) (pre rest : Buffer)
  (left : nat) :
  Forall (λ e, nulFree (wName e)) entries →
  left = length entries
  ∨ ((length entries < left)%nat ∧ truncatedEntryJs rest) →
  completeEntries (pre ++ concat (encodeEntry <$> entries) ++ rest) left
    (length pre)
  = entryJs <$> entries.
Proof.
  intros Hnames. revert pre left.
  induction Hnames as [|e entries He _ IH]; intros pre left Hleft.
  - destruct Hleft as [->|[_ Hcut]]; [done|].
    cbn. by apply completeEntries_cut.
  - destruct left as [|left]; [cbn in Hleft; destruct Hleft; [done|lia]|].
    rewrite fmap_cons. cbn [concat]. rewrite <- (app_assoc (encodeEntry e)).
    rewrite completeEntries_complete by done.
    rewrite (app_assoc pre), IH; [done|].
    cbn in Hleft. destruct Hleft as [?|[? ?]]; [left; lia|right]. split; [lia|done].
Qed.

(** X7: [parsePlayerInfo] of src/server.js on a response laid out as it
    reads it: four bytes, the tag 0x44, one byte that is skipped, the count,
    and the entries, with names of any bytes but the terminator.  When the
    count equals the number of entries present, whatever follows is ignored,
    and when it announces more, the rest being a truncated entry or nothing,
    the result is in both cases the entries present whose decoded name is
    not empty, in their order, each with its name trimmed. *)
Theorem parsePlayerInfo_roundtrip (header : Buffer) (skipped count : byte)
  (entries : list WireEntry) (rest : Buffer) :
  length header = 4%nat →
  Forall (λ e, nulFree (wName e)) entries →
  u8 count = Z.of_nat (length entries)
  ∨ (Z.of_nat (length entries) < u8 count ∧ truncatedEntryJs rest) →
  ServerJs.parsePlayerInfo
    (header ++ x44 :: skipped :: count
     :: concat (encodeEntry <$> entries) ++ rest)
  = Normal (trimName <$>
            filter (λ e, ServerJs.PlayerEntry.name e ≠ [])
                   (entryJs <$> entries)).
Proof.
  intros Hheader Hnames Hcount.
  set (buffer := header ++ _).
  assert (buffer = (header ++ [x44; skipped; count])
                   ++ concat (encodeEntry <$> entries) ++ rest) as Hbuffer.
  { unfold buffer. by list_norm. }
  unfold ServerJs.parsePlayerInfo.
  rewrite bool_decide_eq_false_2.
  2:{ unfold buffer. rewrite length_app. cbn. lia. }
  rewrite bool_decide_eq_false_2.
  2:{ intros Htag. apply Htag. unfold at_, buffer.
      by rewrite list_lookup_middle. }
  cbn [orb]. rewrite playerLoop_filter, app_nil_l.
  assert (at_ buffer 6 = Some (u8 count)) as ->.
  { unfold at_, buffer.
    replace (header ++ x44 :: skipped :: count
             :: concat (encodeEntry <$> entries) ++ rest)
      with ((header ++ [x44; skipped]) ++ count
            :: concat (encodeEntry <$> entries) ++ rest) by (by list_norm).
    rewrite list_lookup_middle; [done|]. rewrite length_app, Hheader. done. }
  cbn [ServerJs.iterations]. rewrite Hbuffer.
  replace 7%nat with (length (header ++ [x44; skipped; count]))
    by (rewrite length_app, Hheader; done).
  rewrite completeEntries_entries; [done..|].
  destruct Hcount as [->|[Hmore Hcut]].
  - left. by rewrite Nat2Z.id.
  - right. split; [lia|done].
Qed.

Lemma parsePlayerInfo_roundtrip_witness :
  ServerJs.parsePlayerInfo
    (fromArray [0xFF; 0xFF; 0xFF; 0xFF] ++ x44 :: x00 :: x02
     :: concat (encodeEntry <$>
                [mkWire x00 [x20; xc3; xa9] (x05, x00, x00, x00)
                   (x00, x00, x80, x3f)])
     ++ [x01; x61; x00; x07])
  = Normal (trimName <$>
            filter (λ e, ServerJs.PlayerEntry.name e ≠ [])
                   (entryJs <$>
                    [mkWire x00 [x20; xc3; xa9] (x05, x00, x00, x00)
                       (x00, x00, x80, x3f)])).
Proof.
  apply (parsePlayerInfo_roundtrip (fromArray [0xFF; 0xFF; 0xFF; 0xFF])
           x00 x02).
  - reflexivity.
  - repeat constructor; discriminate.
  - right. split; [reflexivity|].
    right. exists x01, [x61], [x00; x07].
    split; [reflexivity|]. split; [repeat constructor; discriminate|].
    right. exists [x07]. split; [reflexivity|cbn; lia].
Defined.

(** * Further properties of the queries *)

Lemma deliverAll_snoc {X A} (on : Event → Eff (Call X A) ())
  (evs : list Event) (ev : Event) (c : Call X A) :
  deliverAll on (evs ++ [ev]) c = deliver on ev (deliverAll on evs c).
Proof. unfold deliverAll. by rewrite foldl_app. Qed.

Lemma deliverAll_app {X A} (on : Event → Eff (Call X A) ())
  (evs evs' : list Event) (c : Call X A) :
  deliverAll on (evs ++ evs') c = deliverAll on evs' (deliverAll on evs c).
Proof. unfold deliverAll. by rewrite foldl_app. Qed.

Ltac handler_cases :=
  let cc := fresh "cc" in let tm := fresh "tm" in
  intros ev [cc ? tm [|?] ? ? ? ?]; cbn in *; intros; simplify_eq;
  destruct ev as [|[?|]|?|?], tm as [?|], cc as [|?];
  run_handler; try done;
  repeat (case_match; cbn in *; simplify_eq; try done).

Lemma onServerInfo_firstWins : firstWins ServerJs.onServerInfo.
Proof. unfold firstWins. handler_cases. Qed.

Lemma onPlayers_firstWins ip port : firstWins (ServerJs.onPlayers ip port).
Proof. unfold firstWins. handler_cases. Qed.

Lemma onServer_firstWins : firstWins Relay.onServer.
Proof. unfold firstWins. handler_cases. Qed.

Lemma onQueryPlayers_firstWins ip port :
  firstWins (Relay.onQueryPlayers ip port).
Proof. unfold firstWins. handler_cases. Qed.

(** ** Where a result comes from *)

Lemma resolved_by_event {X A} (on : Event → Eff (Call X A) ())
  (P : Event → A → Prop) (c0 : Call X A) (evs : list Event) (v : A) :
  firstWins on →
  (∀ ev c, promise c = None →
     promise (deliver on ev c) = Some (Resolved v) → P ev v) →
  promise c0 ≠ Some (Resolved v) →
  promise (deliverAll on evs c0) = Some (Resolved v) →
  ∃ ev, ev ∈ evs ∧ P ev v.
Proof.
  intros Hfirst Hstep Hstart.
  induction evs as [|ev evs IH] using rev_ind; [done|].
  rewrite deliverAll_snoc. intros Hlast.
  destruct (promise (deliverAll on evs c0)) as [s|] eqn:Hprev.
  - rewrite (Hfirst ev _ s Hprev) in Hlast. injection Hlast as ->.
    destruct (IH eq_refl) as (ev' & Hin & HP). exists ev'.
    split; [|done]. apply elem_of_app. by left.
  - exists ev. split; [apply elem_of_app; right; apply list_elem_of_here|].
    by eapply Hstep.
Qed.

(** X8: in src/server.js a query resolves only with what some datagram it
    received decodes to: a resolved ServerInfo is [parseServerInfo] of a
    received message, and a resolved player list is [parsePlayerInfo] of
    one. *)
Theorem serverjs_result_from_datagram timeout ip port sync evs :
  (∀ info,
     promise (deliverAll ServerJs.onServerInfo evs
                (ServerJs.getServerInfo timeout ip port sync))
     = Some (Resolved info) →
     ∃ data, Message data ∈ evs
             ∧ ServerJs.parseServerInfo data = Normal info)
  ∧ (∀ ps,
       promise (deliverAll (ServerJs.onPlayers ip port) evs
                  (ServerJs.getPlayers timeout ip port sync))
       = Some (Resolved ps) →
       ∃ data, Message data ∈ evs
               ∧ ServerJs.parsePlayerInfo data = Normal ps).
Proof.
  split.
  - intros info Hinfo.
    destruct (resolved_by_event ServerJs.onServerInfo
                (λ ev v, ∃ data, ev = Message data
                                 ∧ ServerJs.parseServerInfo data = Normal v)
                (ServerJs.getServerInfo timeout ip port sync) evs info
                onServerInfo_firstWins)
      as (ev & Hin & data & -> & Hdata);
      [| |exact Hinfo|by exists data].
    + clear. intros ev [cc ts tm ps sn pr un lo]. cbn. intros ->.
      destruct ev as [|[err|]|msg|err], tm as [t|], cc as [|cc], ps as [|ps];
        run_handler; try done;
        destruct (ServerJs.parseServerInfo msg) eqn:Hmsg; cbn;
        intros [= <-]; eauto.
    + destruct sync; by run_handler.
  - intros ps Hps.
    destruct (resolved_by_event (ServerJs.onPlayers ip port)
                (λ ev v, ∃ data, ev = Message data
                                 ∧ ServerJs.parsePlayerInfo data = Normal v)
                (ServerJs.getPlayers timeout ip port sync) evs ps
                (onPlayers_firstWins ip port))
      as (ev & Hin & data & -> & Hdata);
      [| |exact Hps|by exists data].
    + clear. intros ev [cc ts tm pn sn pr un lo]. cbn. intros ->.
      destruct ev as [|[err|]|msg|err], tm as [t|], cc as [|cc], pn as [|pn];
        run_handler; try done;
        repeat (case_match; cbn in *; simplify_eq; try done);
        intros; cbn in *; simplify_eq; eauto.
    + destruct sync; by run_handler.
Qed.

Lemma serverjs_result_from_datagram_witness :
  ∃ data, Message data ∈ [SendCallback None; Message infoScenario]
          ∧ ServerJs.parseServerInfo data
            = Normal (ServerJs.ServerInfo.mk (lit "y Server")
                        (lit "de_dust2") (lit "Counter-Strike") 16 32 0 240).
Proof.
  apply (proj1 (serverjs_result_from_datagram 3000 "203.0.113.7" 28015 None
                  [SendCallback None; Message infoScenario])).
  reflexivity.
Defined.

(** X9: in the second variant a query reports success only with what some
    datagram it received decodes to, whether or not its first send raised:
    the data of a successful info query is [parseA2SInfo] of a received
    message, and the data of a successful player query is
    [parseA2SPlayers] of one. *)
Theorem relay_result_from_datagram timeout ip port sync evs :
  (∀ info,
     promise (deliverAll Relay.onServer evs
                (Relay.queryServer ip port timeout sync))
     = Some (Resolved (Relay.Success info)) →
     ∃ msg, Message msg ∈ evs ∧ Relay.parseA2SInfo msg = Normal info)
  ∧ (∀ ps,
       promise (deliverAll (Relay.onQueryPlayers ip port) evs
                  (Relay.queryPlayers ip port timeout sync))
       = Some (Resolved (Relay.Success ps)) →
       ∃ msg, Message msg ∈ evs ∧ Relay.parseA2SPlayers msg = Normal ps).
Proof.
  split.
  - intros info Hinfo.
    destruct (resolved_by_event Relay.onServer
                (λ ev v, ∃ msg d, ev = Message msg ∧ v = Relay.Success d
                                  ∧ Relay.parseA2SInfo msg = Normal d)
                (Relay.queryServer ip port timeout sync) evs (Relay.Success info)
                onServer_firstWins)
      as (ev & Hin & msg & d & -> & [= <-] & Hmsg);
      [| |exact Hinfo|by exists msg].
    + clear. intros ev [cc ts tm pn sn pr un lo]. cbn. intros ->.
      destruct ev as [|[err|]|msg|err], tm as [t|], cc as [|cc], pn as [|pn];
        run_handler; try done;
        repeat (case_match; cbn in *; simplify_eq; try done);
        intros; cbn in *; simplify_eq; eauto.
    + destruct sync; by run_handler.
  - intros ps Hps.
    destruct (resolved_by_event (Relay.onQueryPlayers ip port)
                (λ ev v, ∃ msg d, ev = Message msg ∧ v = Relay.Success d
                                  ∧ Relay.parseA2SPlayers msg = Normal d)
                (Relay.queryPlayers ip port timeout sync) evs (Relay.Success ps)
                (onQueryPlayers_firstWins ip port))
      as (ev & Hin & msg & d & -> & [= <-] & Hmsg);
      [| |exact Hps|by exists msg].
    + clear. intros ev [cc ts tm pn sn pr un [res step]]. cbn. intros ->.
      destruct ev as [|[err|]|msg|err], tm as [t|], cc as [|cc], pn as [|pn];
        run_handler; try done;
        repeat (case_match; cbn in *; simplify_eq; try done);
        intros; cbn in *; simplify_eq; eauto.
    + destruct sync; by run_handler.
Qed.

Lemma relay_result_from_datagram_witness :
  ∃ msg, Message msg ∈ [Message challengeDatagram; Message playersScenario]
         ∧ Relay.parseA2SPlayers msg
           = Normal [Relay.PlayerEntry.mk 0 (lit "a") 1 0x3F800000;
                     Relay.PlayerEntry.mk 1 (lit "b") 2 0x40000000].
Proof.
  apply (proj2 (relay_result_from_datagram 5000 "203.0.113.7" 28015 None
                  [Message challengeDatagram; Message playersScenario])).
  reflexivity.
Defined.

(** ** A server that never answers *)

Lemma quiet_then_timeout {X A} (on : Event → Eff (Call X A) ())
  (ready : Call X A → Prop) (out : Settled A) (c0 : Call X A)
  (quiet rest : list Event) :
  firstWins on → ready c0 →
  (∀ c, ready c → ready (deliver on (SendCallback None) c)) →
  (∀ c, ready c → promise (deliver on TimerFires c) = Some out) →
  Forall (λ ev, ev = SendCallback None) quiet →
  promise (deliverAll on (quiet ++ TimerFires :: rest) c0) = Some out.
Proof.
  intros Hfirst Hready Hquiet Hfire Hall.
  rewrite deliverAll_app.
  assert (ready (deliverAll on quiet c0)) as Hready'.
  { revert c0 Hready. induction Hall as [|ev quiet -> _ IH]; intros c0 Hc0;
      [done|]. cbn. apply IH. by apply Hquiet. }
  change (TimerFires :: rest) with ([TimerFires] ++ rest).
  rewrite deliverAll_app. cbn [deliverAll foldl app].
  generalize (Hfire _ Hready').
  generalize (deliver on TimerFires (deliverAll on quiet c0)).
  clear -Hfirst. intros c Hc. revert c Hc.
  induction rest as [|ev rest IH]; intros c Hc; [done|].
  cbn. apply IH. by apply Hfirst.
Qed.

(** X10: a query of src/server.js whose sends succeed and whose destination
    stays silent until the timer fires is rejected with 'Timeout', whatever
    happens afterwards. *)
Theorem serverjs_silent_timeout timeout ip port quiet rest :
  Forall (λ ev, ev = SendCallback None) quiet →
  promise (deliverAll ServerJs.onServerInfo (quiet ++ TimerFires :: rest)
             (ServerJs.getServerInfo timeout ip port None))
  = Some (Rejected (Error "Timeout"))
  ∧ promise (deliverAll (ServerJs.onPlayers ip port)
               (quiet ++ TimerFires :: rest)
               (ServerJs.getPlayers timeout ip port None))
    = Some (Rejected (Error "Timeout")).
Proof.
  intros Hquiet. split.
  - apply (quiet_then_timeout _ idle); [apply onServerInfo_firstWins| | | |done].
    + by run_handler.
    + intros [cc ts tm pn sn pr un lo] (Hcc & Htm & Hpr). cbn in *. subst.
      destruct pn; run_handler; done.
    + intros [cc ts tm pn sn pr un lo] (Hcc & Htm & Hpr). cbn in *. subst.
      destruct tm; [|done]. by run_handler.
  - apply (quiet_then_timeout _ idle);
      [apply onPlayers_firstWins| | | |done].
    + by run_handler.
    + intros [cc ts tm pn sn pr un lo] (Hcc & Htm & Hpr). cbn in *. subst.
      destruct pn; run_handler; done.
    + intros [cc ts tm pn sn pr un lo] (Hcc & Htm & Hpr). cbn in *. subst.
      destruct tm; [|done]. by run_handler.
Qed.

Lemma serverjs_silent_timeout_witness :
  promise (deliverAll ServerJs.onServerInfo
             ([SendCallback None] ++ TimerFires :: [Message infoScenario])
             (ServerJs.getServerInfo 3000 "203.0.113.7" 28015 None))
  = Some (Rejected (Error "Timeout")).
Proof.
  apply (proj1 (serverjs_silent_timeout 3000 "203.0.113.7" 28015
                  [SendCallback None] [Message infoScenario]
                  ltac:(repeat constructor))).
Defined.

(** X11: a query of the second variant whose sends succeed and whose
    destination stays silent until the timer fires resolves with the error
    'Timeout', whatever happens afterwards. *)
Theorem relay_silent_timeout timeout ip port quiet rest :
  Forall (λ ev, ev = SendCallback None) quiet →
  promise (deliverAll Relay.onServer (quiet ++ TimerFires :: rest)
             (Relay.queryServer ip port timeout None))
  = Some (Resolved (Relay.Failure "Timeout"))
  ∧ promise (deliverAll (Relay.onQueryPlayers ip port)
               (quiet ++ TimerFires :: rest)
               (Relay.queryPlayers ip port timeout None))
    = Some (Resolved (Relay.Failure "Timeout")).
Proof.
  intros Hquiet. split.
  - apply (quiet_then_timeout _ (λ c, idle c ∧ local c = false));
      [apply onServer_firstWins| | | |done].
    + by run_handler.
    + intros [cc ts tm pn sn pr un lo] [(Hcc & Htm & Hpr) Hlo].
      cbn in *. subst. destruct pn; run_handler; done.
    + intros [cc ts tm pn sn pr un lo] [(Hcc & Htm & Hpr) Hlo].
      cbn in *. subst. destruct tm; [|done]. by run_handler.
  - apply (quiet_then_timeout _ (λ c, idle c ∧ fst (local c) = false));
      [apply onQueryPlayers_firstWins| | | |done].
    + by run_handler.
    + intros [cc ts tm pn sn pr un [res step]] [(Hcc & Htm & Hpr) Hlo].
      cbn in *. subst. destruct pn; run_handler; done.
    + intros [cc ts tm pn sn pr un [res step]] [(Hcc & Htm & Hpr) Hlo].
      cbn in *. subst. destruct tm; [|done]. by run_handler.
Qed.

Lemma relay_silent_timeout_witness :
  promise (deliverAll (Relay.onQueryPlayers "203.0.113.7" 28015)
             ([SendCallback None] ++ TimerFires :: [Message playersScenario])
             (Relay.queryPlayers "203.0.113.7" 28015 5000 None))
  = Some (Resolved (Relay.Failure "Timeout")).
Proof.
  apply (proj2 (relay_silent_timeout 5000 "203.0.113.7" 28015
                  [SendCallback None] [Message playersScenario]
                  ltac:(repeat constructor))).
Defined.

(** ** After the settlement *)

(** X12: once a query of the second variant has resolved, its first send
    not having raised, later events change neither its result nor the
    datagrams it has sent, and they close nothing and raise nothing: every
    callback is a no-op. *)
Theorem relay_settlement_final timeout ip port evs evs' :
  (let c := deliverAll Relay.onServer evs
              (Relay.queryServer ip port timeout None) in
   let c' := deliverAll Relay.onServer (evs ++ evs')
               (Relay.queryServer ip port timeout None) in
   promise c ≠ None →
   promise c' = promise c ∧ sent c' = sent c
   ∧ closeCalls c' = closeCalls c ∧ uncaught c' = uncaught c)
  ∧ (let c := deliverAll (Relay.onQueryPlayers ip port) evs
                (Relay.queryPlayers ip port timeout None) in
     let c' := deliverAll (Relay.onQueryPlayers ip port) (evs ++ evs')
                 (Relay.queryPlayers ip port timeout None) in
     promise c ≠ None →
     promise c' = promise c ∧ sent c' = sent c
     ∧ closeCalls c' = closeCalls c ∧ uncaught c' = uncaught c).
Proof.
  split.
  - intros c c' Hsettled. subst c'. rewrite deliverAll_app. fold c.
    pose proof (queryServer_guarded timeout ip port evs) as Hc. fold c in Hc.
    destruct Hc as ((_ & Htm) & _ & _ & Hres & _).
    destruct (timer c) eqn:Htimer; [by destruct Htm as (_ & _ & ?)|].
    cbn in Hres.
    apply (deliverAll_invariant
             (λ x, local x = true ∧ promise x = promise c ∧ sent x = sent c
                   ∧ closeCalls x = closeCalls c ∧ uncaught x = uncaught c));
      [|done].
    clear. intros ev [cc ts tm pn sn pr un lo] (Hlo & Hpr & Hsn & Hcc & Hun).
    cbn in *. subst lo.
    destruct ev as [|[err|]|msg|err], tm as [t|], cc as [|cc], pn as [|pn];
      run_handler; done.
  - intros c c' Hsettled. subst c'. rewrite deliverAll_app. fold c.
    pose proof (queryPlayers_guarded timeout ip port evs) as Hc. fold c in Hc.
    destruct Hc as ((_ & Htm) & _ & _ & Hres & _).
    destruct (timer c) eqn:Htimer; [by destruct Htm as (_ & _ & ?)|].
    cbn in Hres.
    apply (deliverAll_invariant
             (λ x, fst (local x) = true ∧ promise x = promise c
                   ∧ sent x = sent c
                   ∧ closeCalls x = closeCalls c ∧ uncaught x = uncaught c));
      [|done].
    clear. intros ev [cc ts tm pn sn pr un [res step]]
                  (Hlo & Hpr & Hsn & Hcc & Hun).
    cbn in *. subst res.
    destruct ev as [|[err|]|msg|err], tm as [t|], cc as [|cc], pn as [|pn];
      run_handler; done.
Qed.

Lemma relay_settlement_final_witness :
  sent (deliverAll (Relay.onQueryPlayers "203.0.113.7" 28015)
          ([Message untaggedDatagram]
           ++ [Message challengeDatagram; TimerFires])
          (Relay.queryPlayers "203.0.113.7" 28015 5000 None))
  = sent (deliverAll (Relay.onQueryPlayers "203.0.113.7" 28015)
            [Message untaggedDatagram]
            (Relay.queryPlayers "203.0.113.7" 28015 5000 None)).
Proof.
  apply (proj2 (relay_settlement_final 5000 "203.0.113.7" 28015
                  [Message untaggedDatagram]
                  [Message challengeDatagram; TimerFires])).
  discriminate.
Defined.

(** X13: once a query of src/server.js has settled, later events change
    neither its result nor the datagrams it has sent. *)
Theorem serverjs_settlement_final timeout ip port sync evs evs' :
  (let c := deliverAll ServerJs.onServerInfo evs
              (ServerJs.getServerInfo timeout ip port sync) in
   let c' := deliverAll ServerJs.onServerInfo (evs ++ evs')
               (ServerJs.getServerInfo timeout ip port sync) in
   promise c ≠ None → promise c' = promise c ∧ sent c' = sent c)
  ∧ (let c := deliverAll (ServerJs.onPlayers ip port) evs
                (ServerJs.getPlayers timeout ip port sync) in
     let c' := deliverAll (ServerJs.onPlayers ip port) (evs ++ evs')
                 (ServerJs.getPlayers timeout ip port sync) in
     promise c ≠ None → promise c' = promise c ∧ sent c' = sent c).
Proof.
  split.
  - intros c c' Hsettled. subst c'. rewrite deliverAll_app. fold c.
    pose proof (getServerInfo_lifecycle timeout ip port sync evs) as Hc.
    fold c in Hc. destruct Hc as (_ & Htm).
    destruct (timer c) eqn:Htimer; [by destruct Htm as (_ & _ & ?)|].
    destruct Htm as [Hclosed _].
    destruct (promise c) as [s|] eqn:Hs; [|done].
    apply (deliverAll_invariant
             (λ x, (1 ≤ closeCalls x)%nat ∧ timer x = None
                   ∧ promise x = Some s ∧ sent x = sent c));
      [|done].
    clear. intros ev [cc ts tm pn sn pr un lo] (Hcc & Htm & Hpr & Hsn).
    cbn in *. subst.
    destruct ev as [|[err|]|msg|err], cc as [|cc], pn as [|pn];
      try lia; run_handler; cbn; repeat split; (done || lia).
  - intros c c' Hsettled. subst c'. rewrite deliverAll_app. fold c.
    pose proof (getPlayers_lifecycle timeout ip port sync evs) as Hc.
    fold c in Hc. destruct Hc as (_ & Htm).
    destruct (timer c) eqn:Htimer; [by destruct Htm as (_ & _ & ?)|].
    destruct Htm as [Hclosed _].
    destruct (promise c) as [s|] eqn:Hs; [|done].
    apply (deliverAll_invariant
             (λ x, (1 ≤ closeCalls x)%nat ∧ timer x = None
                   ∧ promise x = Some s ∧ sent x = sent c));
      [|done].
    clear. intros ev [cc ts tm pn sn pr un lo] (Hcc & Htm & Hpr & Hsn).
    cbn in *. subst.
    destruct ev as [|[err|]|msg|err], cc as [|cc], pn as [|pn];
      try lia; run_handler; cbn; repeat split; (done || lia).
Qed.

Lemma serverjs_settlement_final_witness :
  promise (deliverAll ServerJs.onServerInfo
             ([TimerFires] ++ [SendCallback (Some (Error "EHOSTUNREACH"))])
             (ServerJs.getServerInfo 3000 "203.0.113.7" 28015 None))
  = promise (deliverAll ServerJs.onServerInfo [TimerFires]
               (ServerJs.getServerInfo 3000 "203.0.113.7" 28015 None)).
Proof.
  apply (proj1 (serverjs_settlement_final 3000 "203.0.113.7" 28015 None
                  [TimerFires]
                  [SendCallback (Some (Error "EHOSTUNREACH"))])).
  discriminate.
Defined.

(** ** The challenge exchange *)

Lemma playerPacket_echo (msg : Buffer) :
  (9 ≤ length msg)%nat →
  length (Relay.playerPacket (slice msg 5 9)) = 9%nat
  ∧ ∀ i, (i < 4)%nat →
      at_ (Relay.playerPacket (slice msg 5 9)) (5 + i) = at_ msg (5 + i).
Proof.
  intros Hlen. unfold Relay.playerPacket, slice. split.
  - rewrite length_app, length_take, length_drop.
    change (length (fromArray _)) with 5%nat. lia.
  - intros i Hi.
    change (5 + i)%nat
      with (length (fromArray [0xFF; 0xFF; 0xFF; 0xFF; 0x55]%Z) + i)%nat
      at 1.
    rewrite at_app_r. unfold at_.
    by rewrite lookup_take_lt, lookup_drop by lia.
Qed.

Lemma queryPlayers_exchange_state timeout ip port
  (reply response : Buffer) :
  (9 ≤ length reply)%nat → at_ reply 4 = Some 0x41 →
  deliverAll (Relay.onQueryPlayers ip port)
    [Message reply; Message response] (Relay.queryPlayers ip port timeout None)
  = mkCall 1 1 None 1
      [(Relay.challengePacket, port, ip);
       (Relay.playerPacket (slice reply 5 9), port, ip)]
      (Some (Resolved
               (match Relay.parseA2SPlayers response with
                | Normal result => Relay.Success result
                | Throw error => Relay.Failure (ServerJs.message error)
                end)))
      [] (true, Relay.players).
Proof.
  intros Hlen Htag. run_handler. rewrite !bool_decide_eq_true_2 by done.
  cbn. by destruct (Relay.parseA2SPlayers response).
Qed.

(** X14: the player query of the second variant, answered by a challenge
    reply (at least 9 bytes, tag 0x41) and then by any datagram.  It sends
    exactly two datagrams, the challenge request and a 9-byte player request
    whose bytes 5 to 8 are those of the reply; it closes its socket once and
    clears its timer; and it resolves with the player list the second
    datagram decodes to, never with an error. *)
Theorem queryPlayers_exchange timeout ip port (reply response : Buffer) :
  (9 ≤ length reply)%nat → at_ reply 4 = Some 0x41 →
  let c := deliverAll (Relay.onQueryPlayers ip port)
             [Message reply; Message response]
             (Relay.queryPlayers ip port timeout None) in
  sent c = [(Relay.challengePacket, port, ip);
            (Relay.playerPacket (slice reply 5 9), port, ip)]
  ∧ length (Relay.playerPacket (slice reply 5 9)) = 9%nat
  ∧ (∀ i, (i < 4)%nat →
       at_ (Relay.playerPacket (slice reply 5 9)) (5 + i)
       = at_ reply (5 + i))
  ∧ (∃ ps, Relay.parseA2SPlayers response = Normal ps
           ∧ promise c = Some (Resolved (Relay.Success ps)))
  ∧ closeCalls c = 1%nat ∧ timer c = None ∧ uncaught c = [].
Proof.
  intros Hlen Htag c. subst c.
  destruct (playerPacket_echo reply Hlen) as [Hnine Hecho].
  destruct (parseA2SPlayers_returns response) as (ps & Hps & _).
  rewrite (queryPlayers_exchange_state timeout ip port reply response
             Hlen Htag), Hps.
  cbn [sent promise closeCalls timer uncaught].
  split; [done|]. split; [exact Hnine|]. split; [exact Hecho|].
  split; [by exists ps|done].
Qed.

Lemma queryPlayers_exchange_witness :
  ∃ ps, Relay.parseA2SPlayers playersScenario = Normal ps
        ∧ promise (deliverAll (Relay.onQueryPlayers "203.0.113.7" 28015)
                     [Message challengeDatagram; Message playersScenario]
                     (Relay.queryPlayers "203.0.113.7" 28015 5000 None))
          = Some (Resolved (Relay.Success ps)).
Proof.
  assert (9 ≤ length challengeDatagram)%nat as Hlen by (cbn; lia).
  destruct (queryPlayers_exchange 5000 "203.0.113.7" 28015 challengeDatagram
              playersScenario Hlen eq_refl) as (_ & _ & _ & H & _).
  exact H.
Defined.

Lemma getPlayers_exchange_state timeout ip port (reply response : Buffer) :
  (9 ≤ length reply)%nat →
  deliverAll (ServerJs.onPlayers ip port) [Message reply; Message response]
    (ServerJs.getPlayers timeout ip port None)
  = mkCall 1 1 None 2
      [(ServerJs.challengePacket, port, ip);
       (ServerJs.playerPacket (slice reply 5 9), port, ip)]
      (Some (match ServerJs.parsePlayerInfo response with
             | Normal ps => Resolved ps
             | Throw err => Rejected err
             end))
      [] true.
Proof.
  intros Hlen. run_handler. rewrite !bool_decide_eq_true_2 by done. cbn.
  by destruct (ServerJs.parsePlayerInfo response).
Qed.

(** X15: the player query of src/server.js, answered by a first datagram of
    at least 9 bytes and then by any datagram.  It sends exactly two
    datagrams, the challenge request and a 9-byte player request whose bytes
    5 to 8 are those of the first datagram; it closes its socket once and
    clears its timer; and it settles with what [parsePlayerInfo] makes of
    the second datagram, the list or the error. *)
Theorem getPlayers_exchange timeout ip port (reply response : Buffer) :
  (9 ≤ length reply)%nat →
  let c := deliverAll (ServerJs.onPlayers ip port)
             [Message reply; Message response]
             (ServerJs.getPlayers timeout ip port None) in
  sent c = [(ServerJs.challengePacket, port, ip);
            (ServerJs.playerPacket (slice reply 5 9), port, ip)]
  ∧ length (ServerJs.playerPacket (slice reply 5 9)) = 9%nat
  ∧ (∀ i, (i < 4)%nat →
       at_ (ServerJs.playerPacket (slice reply 5 9)) (5 + i)
       = at_ reply (5 + i))
  ∧ promise c
    = Some (match ServerJs.parsePlayerInfo response with
            | Normal ps => Resolved ps
            | Throw err => Rejected err
            end)
  ∧ closeCalls c = 1%nat ∧ timer c = None ∧ uncaught c = [].
Proof.
  intros Hlen c. subst c.
  destruct (playerPacket_echo reply Hlen) as [Hnine Hecho].
  rewrite (getPlayers_exchange_state timeout ip port reply response Hlen).
  cbn [sent promise closeCalls timer uncaught].
  split; [done|]. split; [exact Hnine|]. split; [exact Hecho|]. done.
Qed.

Lemma getPlayers_exchange_witness :
  promise (deliverAll (ServerJs.onPlayers "203.0.113.7" 28015)
             [Message challengeDatagram; Message blankNamePlayer]
             (ServerJs.getPlayers 3000 "203.0.113.7" 28015 None))
  = Some (match ServerJs.parsePlayerInfo blankNamePlayer with
          | Normal ps => Resolved ps
          | Throw err => Rejected err
          end).
Proof.
  assert (9 ≤ length challengeDatagram)%nat as Hlen by (cbn; lia).
  destruct (getPlayers_exchange 3000 "203.0.113.7" 28015 challengeDatagram
              blankNamePlayer Hlen) as (_ & _ & _ & H & _).
  exact H.
Defined.

(** * The endpoints *)

Lemma serverjs_processServer_consistent {I} (net : ServerJs.Network)
  (k : nat) (server : QuerySpec.t I) (r : ServerJs.BatchResult.t I) :
  ServerJs.processServer net k server = Some (Resolved r) →
  echoes server (ServerJs.BatchResult.id r) (ServerJs.BatchResult.ip r)
    (ServerJs.BatchResult.port r)
  ∧ consistentJs (ServerJs.BatchResult.serverInfo r)
      (ServerJs.BatchResult.players r) (ServerJs.BatchResult.errors r).
Proof.
  unfold ServerJs.processServer. cbv zeta.
  destruct (await (deliverAll ServerJs.onServerInfo _ _)) as [info|];
    cbn; [|done].
  destruct (await (deliverAll (ServerJs.onPlayers _ _) _ _)) as [roster|];
    cbn; [|done].
  intros [= <-]. split; [done|]. unfold consistentJs. cbn.
  destruct info, roster; cbn; split; split; done.
Qed.

Lemma relay_processServer_consistent {I} (net : Relay.Network)
  (k : nat) (server : QuerySpec.t I) (r : Relay.BatchResult.t I) :
  Relay.processServer net k server = Some (Resolved r) →
  echoes server (Relay.BatchResult.id r) (Relay.BatchResult.ip r)
    (Relay.BatchResult.port r)
  ∧ consistentRelay (Relay.BatchResult.serverInfo r)
      (Relay.BatchResult.players r) (Relay.BatchResult.errors r).
Proof.
  unfold Relay.processServer. cbv zeta.
  destruct (promiseAll2 _ _ _) as [[[info roster]|reason]|]; [|done..].
  intros [= <-]. split; [done|]. unfold consistentRelay. cbn.
  destruct info, roster; cbn; split; try split; done.
Qed.




(** ** [Promise.all] of one promise *)



(** ** Where a rejection comes from *)




















(** ** The batch endpoints, whatever the network does *)

Lemma Forall2_through {A B C} (P : A → B → Prop) (Q : A → C → Prop)
  (R : B → C → Prop) (l : list A) (k : list B) (m : list C) :
  (∀ a b c, P a b → Q a c → R b c) →
  Forall2 P l k → Forall2 Q l m → Forall2 R k m.
Proof.
  intros HR HP. revert m.
  induction HP as [|a b l k Hab _ IH]; intros m HQ; inversion HQ; subst.
  - constructor.
  - constructor; [by eapply HR|by apply IH].
Qed.

Lemma allLoop_inv {A} (promises : list (option (Settled A)))
  (order : list nat) (values : list (option A)) (all : list A) :
  Forall2 (λ slot p, ∀ v, slot = Some v → p = Some (Resolved v))
    values promises →
  Node.allLoop promises order values = Some (Resolved all) →
  Forall2 (λ p v, p = Some (Resolved v)) promises all.
Proof.
  revert values.
  induction order as [|index order IH]; intros values Hinv; cbn; [done|].
  destruct (promises !! index) as [[[value|reason]|]|] eqn:Hp;
    [|done|by apply IH..].
  assert (Forall2 (λ slot p, ∀ v, slot = Some v → p = Some (Resolved v))
            (<[index := Some value]> values) promises) as Hinv'.
  { rewrite <- (list_insert_id promises index _ Hp).
    apply Forall2_insert; [done|]. by intros v [= <-]. }
  destruct (mapM id (<[index := Some value]> values)) as [all'|] eqn:Hm;
    [|by apply IH].
  intros [= <-]. apply mapM_Some in Hm.
  eapply Forall2_through; [|exact Hinv'|exact Hm].
  intros slot p v Hslot Hv. by apply Hslot.
Qed.

Lemma promiseAll_inv {A} (promises : list (option (Settled A)))
  (order : list nat) (all : list A) :
  Node.promiseAll promises order = Some (Resolved all) →
  Forall2 (λ p v, p = Some (Resolved v)) promises all.
Proof.
  unfold Node.promiseAll. destruct promises as [|p promises].
  - intros [= <-]. constructor.
  - apply allLoop_inv.
    generalize (p :: promises). intros l.
    induction l; cbn; constructor; done.
Qed.

Lemma gathered_window {T R} (process : nat → T → option (Settled R))
  (servers : list T) (results rs : list R) (i size : nat)
  (order : list nat) :
  (i < length servers)%nat →
  gathered process servers results i →
  Node.promiseAll (imap (λ j, process (i + j)%nat)
                     (slice servers i (i + size))) order
  = Some (Resolved rs) →
  gathered process servers (results ++ rs) (i + size).
Proof.
  intros Hi [Hlen Hlook] Hall%promiseAll_inv.
  assert (length rs = (size `min` (length servers - i))%nat) as Hrs.
  { rewrite <- (Forall2_length _ _ _ Hall), length_imap.
    unfold slice. rewrite length_take, length_drop. lia. }
  split; [rewrite length_app; lia|].
  intros k r Hk. apply lookup_app_Some in Hk as [Hk|[Hge Hk]].
  - by apply Hlook.
  - destruct (Forall2_lookup_r _ _ _ _ _ Hall Hk) as (p & Hp & ->).
    rewrite list_lookup_imap in Hp.
    destruct (slice servers i (i + size) !! (k - length results)%nat)
      as [s|] eqn:Hs; [|done].
    apply slice_lookup in Hs as [Hs _]. injection Hp as Hp.
    replace (i + (k - length results))%nat with k in * by lia.
    by exists s.
Qed.

Lemma gathered_Forall2 {T R} (process : nat → T → option (Settled R))
  (P : T → R → Prop) (servers : list T) (results : list R) (i : nat) :
  (∀ k s r, process k s = Some (Resolved r) → P s r) →
  (length servers ≤ i)%nat →
  gathered process servers results i →
  Forall2 P servers results.
Proof.
  intros HP Hi [Hlen Hlook].
  apply Forall2_same_length_lookup_2; [lia|].
  intros k s r Hs Hr. destruct (Hlook k r Hr) as (s' & Hs' & Hproc).
  assert (s' = s) as -> by congruence. by eapply HP.
Qed.

Lemma serverjs_batchLoop_gathered {I} (net : ServerJs.Network)
  (servers : list (option (QuerySpec.t I))) (fuel i : nat)
  (results final : list (ServerJs.BatchResult.t I)) :
  gathered (ServerJs.processElement net) servers results i →
  ServerJs.batchLoop net servers fuel i results = Some (Resolved final) →
  ∃ n, (length servers ≤ n)%nat
       ∧ gathered (ServerJs.processElement net) servers final n.
Proof.
  revert i results.
  induction fuel as [|fuel IH]; intros i results Hres; cbn;
    case_bool_decide as Hi; try done.
  - intros [= <-]. exists i. split; [lia|done].
  - destruct (Node.promiseAll _ _) as [[rs|reason]|] eqn:Hall; [|done..].
    apply IH. by eapply gathered_window.
  - intros [= <-]. exists i. split; [lia|done].
Qed.

Lemma relay_batchLoop_gathered {I} (net : Relay.Network)
  (servers : list (option (QuerySpec.t I))) (fuel i : nat)
  (results final : list (Relay.BatchResult.t I)) :
  gathered (Relay.processElement net) servers results i →
  Relay.batchLoop net servers fuel i results = Some (Resolved final) →
  ∃ n, (length servers ≤ n)%nat
       ∧ gathered (Relay.processElement net) servers final n.
Proof.
  revert i results.
  induction fuel as [|fuel IH]; intros i results Hres; cbn;
    case_bool_decide as Hi; try done.
  - intros [= <-]. exists i. split; [lia|done].
  - destruct (Node.promiseAll _ _) as [[rs|reason]|] eqn:Hall; [|done..].
    apply IH. by eapply gathered_window.
  - intros [= <-]. exists i. split; [lia|done].
Qed.

Lemma Forall2_Some_inv {A B} (P : A → B → Prop)
  (elements : list (option A)) (results : list B) :
  Forall2 (λ element r, ∃ s, element = Some s ∧ P s r) elements results →
  ∃ servers, elements = Some <$> servers ∧ Forall2 P servers results.
Proof.
  induction 1 as [|element r elements results (s & -> & HP) _
                    (servers & -> & IH)].
  - by exists [].
  - exists (s :: servers). split; [done|by constructor].
Qed.

Lemma serverjs_batch_answer_shape_elements {I} (net : ServerJs.Network)
  (elements : list (option (QuerySpec.t I)))
  (results : list (ServerJs.BatchResult.t I)) :
  ServerJs.queryBatch net elements = Some (Resolved results) →
  ∃ servers, elements = Some <$> servers
             ∧ Forall2 answersJs servers results.
Proof.
  intros Hbatch.
  destruct (serverjs_batchLoop_gathered net elements (length elements) 0 []
              results)
    as (n & Hn & Hfinal); [|exact Hbatch|].
  { split; [done|]. by intros k r. }
  apply Forall2_Some_inv.
  eapply gathered_Forall2; [|exact Hn|exact Hfinal].
  intros k [server|] r; cbn; [|done]. intros Hr. exists server.
  split; [done|]. by eapply serverjs_processServer_consistent.
Qed.

(** X18: POST /query-batch of server.js, under any network behaviour and any
    completion order.  Whenever the endpoint answers, every element of the
    posted array is a server and there is exactly one result per server,
    at the server's own position; the result echoes that server's id, ip
    and port and carries, for each of the two queries, either a value or
    an error message, never both and never neither. *)
Theorem serverjs_batch_answer_shape {I} (net : ServerJs.Network)
  (elements : list (option (QuerySpec.t I)))
  (results : list (ServerJs.BatchResult.t I)) :
  ServerJs.queryBatch net elements = Some (Resolved results) →
  ∃ servers, elements = Some <$> servers
             ∧ Forall2 answersJs servers results.
Proof. apply serverjs_batch_answer_shape_elements. Qed.

Lemma serverjs_batch_answer_shape_witness :
  ∃ results servers,
    ServerJs.queryBatch busyNetworkJs (Some <$> sixServers)
    = Some (Resolved results)
    ∧ Some <$> sixServers = Some <$> servers
    ∧ Forall2 answersJs servers results.
Proof.
  eexists. 
  assert (∀ results,
            ServerJs.queryBatch busyNetworkJs (Some <$> sixServers)
            = Some (Resolved results) →
            ∃ servers, Some <$> sixServers = Some <$> servers
                       ∧ Forall2 answersJs servers results) as H
    by (intros results; apply serverjs_batch_answer_shape).
  edestruct H as (servers & Hservers & Hshape);
    [vm_compute; reflexivity|].
  exists servers. split; [vm_compute; reflexivity|]. split; assumption.
Defined.

(** X19: POST /query-batch of the second variant, under any sequence of
    network events and any completion order.  Whenever the endpoint
    answers with results, every element of the posted array is a server
    and there is exactly one result per server, at the server's own
    position; it echoes that server's id, ip and port, carries the info or
    its error message, and an empty player list whenever the player query
    failed. *)
Theorem relay_batch_answer_shape {I} (net : Relay.Network)
  (elements : list (option (QuerySpec.t I)))
  (results : list (Relay.BatchResult.t I)) :
  Relay.queryBatch net elements = Some (Resolved results) →
  ∃ servers, elements = Some <$> servers
             ∧ Forall2 answersRelay servers results.
Proof.
  intros Hbatch.
  destruct (relay_batchLoop_gathered net elements (length elements) 0 []
              results)
    as (n & Hn & Hfinal); [|exact Hbatch|].
  { split; [done|]. by intros k r. }
  apply Forall2_Some_inv.
  eapply gathered_Forall2; [|exact Hn|exact Hfinal].
  intros k [server|] r; cbn; [|done]. intros Hr. exists server.
  split; [done|]. by eapply relay_processServer_consistent.
Qed.

Lemma relay_batch_answer_shape_witness :
  ∃ results servers,
    Relay.queryBatch busyNetworkRelay (Some <$> sixServers)
    = Some (Resolved results)
    ∧ Some <$> sixServers = Some <$> servers
    ∧ Forall2 answersRelay servers results.
Proof.
  eexists.
  assert (∀ results,
            Relay.queryBatch busyNetworkRelay (Some <$> sixServers)
            = Some (Resolved results) →
            ∃ servers, Some <$> sixServers = Some <$> servers
                       ∧ Forall2 answersRelay servers results) as H
    by (intros results; apply relay_batch_answer_shape).
  edestruct H as (servers & Hservers & Hshape);
    [vm_compute; reflexivity|].
  exists servers. split; [vm_compute; reflexivity|]. split; assumption.
Defined.

(** ** What makes a handler fail *)





(** ** A batch that is answered *)

Lemma deliverAll_invariant_on {X A} (Q : Event → Prop)
  (P : Call X A → Prop) (on : Event → Eff (Call X A) ())
  (evs : list Event) (c : Call X A) :
  Forall Q evs → (∀ ev c, Q ev → P c → P (deliver on ev c)) →
  P c → P (deliverAll on evs c).
Proof.
  intros Hevs Hstep. unfold deliverAll. revert c.
  induction Hevs as [|ev evs Hev _ IH]; intros c Hc; cbn; [done|].
  apply IH. by apply Hstep.
Qed.

Lemma noSendFailure_Forall (evs : list Event) :
  noSendFailure evs →
  Forall (λ ev, ∀ err, ev ≠ SendCallback (Some err)) evs.
Proof.
  intros Hevs. apply Forall_forall. intros ev Hin err ->.
  by apply (Hevs err).
Qed.

Ltac calm_step :=
  unfold lifecycle; run_handler;
  repeat (case_match; cbn in *; simplify_eq; try done);
  try (intuition (simplify_eq; (done || lia))).

(** In src/server.js an exception escapes a callback only when a send is
    reported to have failed. *)
Lemma getServerInfo_calm timeout ip port sync evs :
  noSendFailure evs →
  uncaught (deliverAll ServerJs.onServerInfo evs
              (ServerJs.getServerInfo timeout ip port sync)) = [].
Proof.
  intros Hevs%noSendFailure_Forall.
  apply (deliverAll_invariant_on _
           (λ c, lifecycle timeout c ∧ uncaught c = []) _ _ _ Hevs).
  - intros ev [cc ts tm ps sn pr un lo] Hev [(Hts & Htm) Hun]. cbn in *.
    destruct ev as [|[err|]|msg|err]; [|by destruct (Hev err)|..];
      destruct tm as [t|], cc as [|cc]; calm_step.
  - destruct sync; calm_step.
Qed.

Lemma getPlayers_calm timeout ip port sync evs :
  noSendFailure evs →
  uncaught (deliverAll (ServerJs.onPlayers ip port) evs
              (ServerJs.getPlayers timeout ip port sync)) = [].
Proof.
  intros Hevs%noSendFailure_Forall.
  apply (deliverAll_invariant_on _
           (λ c, lifecycle timeout c ∧ uncaught c = []) _ _ _ Hevs).
  - intros ev [cc ts tm ps sn pr un lo] Hev [(Hts & Htm) Hun]. cbn in *.
    destruct ev as [|[err|]|msg|err]; [|by destruct (Hev err)|..];
      destruct tm as [t|], cc as [|cc]; calm_step.
  - destruct sync; calm_step.
Qed.

Lemma noSendFailure_survives (net : ServerJs.Network) (k : nat)
  (ip : string) (port : Z) :
  noSendFailure (ServerJs.infoEvents net k) →
  noSendFailure (ServerJs.playersEvents net k) →
  survivesJs net k ip port.
Proof.
  intros Hinfo Hplayers.
  split; [by apply getServerInfo_calm|by apply getPlayers_calm].
Qed.

(** X22: POST /query-batch of src/server.js answers every posted server.
    When the deadline of every query is reached, no exception escapes a
    callback, and every promise of a window is looked at, the endpoint
    answers with exactly one result per server, in the order of the posted
    array, whatever the order in which the queries complete and whether or
    not a send raises; the result at position [k] is what the callback of
    server [k] fulfils with and echoes its id, ip and port.  No exception
    escapes a callback when no send is reported to have failed. *)
Theorem serverjs_batch_answers_every_server {I} (net : ServerJs.Network)
  (servers : list (QuerySpec.t I)) :
  ((∀ k server, servers !! k = Some server →
      TimerFires ∈ ServerJs.infoEvents net k
      ∧ TimerFires ∈ ServerJs.playersEvents net k
      ∧ survivesJs net k (QuerySpec.ip server) (QuerySpec.port server)) →
   (∀ i j, (j < ServerJs.BATCH_SIZE)%nat → j ∈ ServerJs.completion net i) →
   ∃ results,
     ServerJs.queryBatch net (Some <$> servers) = Some (Resolved results)
     ∧ length results = length servers
     ∧ ∀ k server, servers !! k = Some server →
         ∃ r, results !! k = Some r
              ∧ ServerJs.processServer net k server = Some (Resolved r)
              ∧ ServerJs.BatchResult.id r = QuerySpec.id server
              ∧ ServerJs.BatchResult.ip r = QuerySpec.ip server
              ∧ ServerJs.BatchResult.port r = QuerySpec.port server)
  ∧ (∀ k ip port,
       noSendFailure (ServerJs.infoEvents net k) →
       noSendFailure (ServerJs.playersEvents net k) →
       survivesJs net k ip port).
Proof.
  split; [|apply noSendFailure_survives].
  intros Hlive Horder.
  destruct (serverjs_batchLoop_answers net (Some <$> servers)
              (length (Some <$> servers)) 0 [])
    as (final & Hfinal & Hlen); [|done|lia| |].
  { intros k element Hk. rewrite list_lookup_fmap in Hk.
    destruct (servers !! k) as [server|] eqn:Hs; [|done].
    injection Hk as <-. destruct (Hlive k server Hs) as (Hi & Hp & Hu).
    destruct (serverjs_processServer_settles net k server Hi Hp Hu)
      as (r & Hr & Hecho).
    exists r, server. by split. }
  { split; [done|]. intros k s Hk. lia. }
  exists final. split; [exact Hfinal|]. pose proof Hlen as Hans.
  destruct Hlen as [Hlen _].
  rewrite length_fmap in Hlen. split; [lia|].
  intros k server Hk.
  destruct (proj2 Hans k (Some server))
    as (r & Hr & server' & [= <-] & Hproc & Hid & Hip & Hport).
  { rewrite length_fmap. by eapply lookup_lt_Some. }
  { by rewrite list_lookup_fmap, Hk. }
  by exists r.
Qed.

Lemma serverjs_batch_answers_every_server_witness :
  ∃ results,
    ServerJs.queryBatch busyNetworkJs (Some <$> sixServers)
    = Some (Resolved results)
    ∧ length results = 6%nat.
Proof.
  destruct (serverjs_batch_answers_every_server busyNetworkJs sixServers)
    as [H _].
  destruct H as (results & Hresults & Hlen & _).
  - intros k server _. split; [destruct k; cbn; in_list|].
    split; [cbn; in_list|]. apply noSendFailure_survives.
    + intros err Hin. destruct k; cbn in Hin;
        repeat (apply elem_of_cons in Hin as [Hin|Hin]; [discriminate|]);
        by apply elem_of_nil in Hin.
    + intros err Hin. cbn in Hin.
      repeat (apply elem_of_cons in Hin as [Hin|Hin]; [discriminate|]).
      by apply elem_of_nil in Hin.
  - intros i j Hj. cbn.
    do 5 (destruct j as [|j]; [in_list|]).
    unfold ServerJs.BATCH_SIZE in Hj. lia.
  - exists results. split; [exact Hresults|exact Hlen].
Defined.

(** X23: POST /query-batch of the second variant answers every posted
    server.  When no first send raises on the spot, the deadline of every
    query is reached, and every promise that is awaited together with
    others is looked at, the endpoint answers with exactly one result per
    server, in the order of the posted array, whatever the order in which
    the queries complete; the result at position [k] is what the callback
    of server [k] fulfils with and echoes its id, ip and port. *)
Theorem relay_batch_answers_every_server {I} (net : Relay.Network)
  (servers : list (QuerySpec.t I)) :
  (∀ k server, servers !! k = Some server →
     Relay.infoSync net k = None ∧ Relay.playersSync net k = None
     ∧ TimerFires ∈ Relay.infoEvents net k
     ∧ TimerFires ∈ Relay.playersEvents net k
     ∧ 0%nat ∈ Relay.pairCompletion net k
     ∧ 1%nat ∈ Relay.pairCompletion net k) →
  (∀ i j, (j < Relay.concurrency)%nat → j ∈ Relay.completion net i) →
  ∃ results,
    Relay.queryBatch net (Some <$> servers) = Some (Resolved results)
    ∧ length results = length servers
    ∧ ∀ k server, servers !! k = Some server →
        ∃ r, results !! k = Some r
             ∧ Relay.processServer net k server = Some (Resolved r)
             ∧ Relay.BatchResult.id r = QuerySpec.id server
             ∧ Relay.BatchResult.ip r = QuerySpec.ip server
             ∧ Relay.BatchResult.port r = QuerySpec.port server.
Proof.
  intros Hlive Horder.
  destruct (relay_batchLoop_answers net (Some <$> servers)
              (length (Some <$> servers)) 0 [])
    as (final & Hfinal & Hlen); [|done|lia| |].
  { intros k element Hk. rewrite list_lookup_fmap in Hk.
    destruct (servers !! k) as [server|] eqn:Hs; [|done].
    injection Hk as <-.
    destruct (Hlive k server Hs) as (Hsi & Hsp & Hi & Hp & H0 & H1).
    destruct (relay_processServer_settles net k server Hsi Hsp Hi Hp H0 H1)
      as (r & Hr & Hecho).
    exists r, server. by split. }
  { split; [done|]. intros k s Hk. lia. }
  exists final. split; [exact Hfinal|]. pose proof Hlen as Hans.
  destruct Hlen as [Hlen _].
  rewrite length_fmap in Hlen. split; [lia|].
  intros k server Hk.
  destruct (proj2 Hans k (Some server))
    as (r & Hr & server' & [= <-] & Hproc & Hid & Hip & Hport).
  { rewrite length_fmap. by eapply lookup_lt_Some. }
  { by rewrite list_lookup_fmap, Hk. }
  by exists r.
Qed.

Lemma relay_batch_answers_every_server_witness :
  ∃ results,
    Relay.queryBatch busyNetworkRelay (Some <$> sixServers)
    = Some (Resolved results)
    ∧ length results = 6%nat.
Proof.
  destruct (relay_batch_answers_every_server busyNetworkRelay sixServers)
    as (results & Hresults & Hlen & _).
  - intros k server _. do 2 (split; [reflexivity|]).
    split; [destruct k; cbn; in_list|]. repeat split; cbn; in_list.
  - intros i j Hj. cbn.
    do 10 (destruct j as [|j]; [in_list|]).
    unfold Relay.concurrency in Hj. lia.
  - exists results. split; [exact Hresults|exact Hlen].
Defined.
